(** * Minesweeper knowledge engine: a shallow embedding of [minesweeper.py]

    The Python module has three classes: [Minesweeper] (the board),
    [Sentence] (a set of cells together with the number of mines among
    them) and [MinesweeperAI] (the player, which accumulates sentences and
    the sets of cells known to be mines or safe).

    Modelling conventions.
    - A cell is a pair of Python integers: [Z * Z].
    - A Python [set] of cells is a [gset (Z * Z)]; [len] is [size].  The
      order in which Python iterates over a set is unspecified; where the
      code turns a set into a list the model uses [elements], and every
      general statement below relies on membership only.
    - Objects are modelled by values.  The code never keeps one mutable
      [Sentence] reachable from two lists that are both used afterwards,
      except in the closure loop of [add_knowledge], where the deep copy
      [new_knowledge] and the live list [self.knowledge] are distinct
      objects: the model threads both explicitly.
    - [random.choice] is modelled by an explicit index drawn by the caller;
      an exception is an explicit constructor of the result type. *)

From Stdlib Require Import ZArith Lia.
From stdpp Require Import base decidable list gmap fin_sets.

#[local] Set Warnings "-clear-no-such-hyp".
Local Open Scope Z_scope.

Abbreviation Cell := (Z * Z)%type.

(** Python's [range(a, b)] over integers. *)
Definition range (a b : Z) : list Z := seqZ a (b - a).

(** Python's [list.remove(x)]: drops the first element equal to [x].
    (Python raises [ValueError] when there is none; every call in the
    source removes an element that was just read from the same list.) *)
Fixpoint list_remove `{EqDecision A} (x : A) (l : list A) : list A :=
  match l with
  | [] => []
  | y :: l' => if decide (y = x) then l' else y :: list_remove x l'
  end.

(** ** class Sentence *)
Module Sentence.

Record t : Type := Sentence { cells : gset Cell; count : Z }.

(** [__eq__]: equal cell sets and equal counts.  On [gset] extensional
    equality is Leibniz equality, so [__eq__] is [=] on the record. *)
#[global] Instance eq_dec : EqDecision t.
Proof. solve_decision. Defined.

(** [__init__(cells, count)]: [self.cells = set(cells)]. *)
Definition init (cs : list Cell) (n : Z) : t :=
  Sentence (list_to_set cs) n.

(** [__sub__] *)
Definition sub (self other : t) : t :=
  Sentence (cells self ∖ cells other) (count self - count other).

Definition known_mines (self : t) : option (gset Cell) :=
  if decide (count self = Z.of_nat (size (cells self)))
  then Some (cells self) else None.

Definition known_safes (self : t) : option (gset Cell) :=
  if decide (count self = 0) then Some (cells self) else None.

Definition mark_mine (cell : Cell) (self : t) : t :=
  if decide (cell ∈ cells self)
  then Sentence (cells self ∖ {[cell]}) (count self - 1)
  else self.

Definition mark_safe (cell : Cell) (self : t) : t :=
  if decide (cell ∈ cells self)
  then Sentence (cells self ∖ {[cell]}) (count self)
  else self.

End Sentence.

(** Truth value of the result of [known_mines()] / [known_safes()] in an
    [if]: [None] and the empty set are false. *)
Definition truthy (o : option (gset Cell)) : bool :=
  match o with
  | Some s => bool_decide (s ≠ ∅)
  | None => false
  end.

(** The set a truthy result is iterated over. *)
Definition cells_of (o : option (gset Cell)) : list Cell :=
  match o with
  | Some s => elements s
  | None => []
  end.

(** ** class Minesweeper (the board) *)
Module Minesweeper.

(** [self.board[i][j]] is [True] exactly for the cells of [self.mines];
    the model keeps the set and reads the grid through it. *)
Record t : Type := Minesweeper { height : Z; width : Z; mines : gset Cell }.

Definition board (self : t) (i j : Z) : bool := bool_decide ((i, j) ∈ mines self).

(** Reads the grid at [cell].  The model is the code's for a cell of the
    grid; off the grid the Python list access raises [IndexError] (or
    wraps for a negative index), which the statements below never rely
    on. *)
Definition is_mine (self : t) (cell : Cell) : bool := board self cell.1 cell.2.

Definition nearby_mines (self : t) (cell : Cell) : Z :=
  foldl (fun count i =>
    foldl (fun count j =>
      if decide ((i, j) = cell) then count
      else if decide ((0 ≤ i < height self) ∧ (0 ≤ j < width self)) then
        (if board self i j then count + 1 else count)
      else count)
      count (range (cell.2 - 1) (cell.2 + 2)))
    0 (range (cell.1 - 1) (cell.1 + 2)).

End Minesweeper.

(** ** class MinesweeperAI *)
Module MinesweeperAI.

Record t : Type := MinesweeperAI {
  height : Z;
  width : Z;
  moves_made : gset Cell;
  mines : gset Cell;
  safes : gset Cell;
  knowledge : list Sentence.t;
  MINE_COUNT : Z
}.

(** [__init__(height, width)] *)
Definition init (h w : Z) : t :=
  MinesweeperAI h w ∅ ∅ ∅ [] 8.

Definition set_moves_made (self : t) (m : gset Cell) : t :=
  MinesweeperAI (height self) (width self) m (mines self) (safes self)
    (knowledge self) (MINE_COUNT self).

Definition set_knowledge (self : t) (k : list Sentence.t) : t :=
  MinesweeperAI (height self) (width self) (moves_made self) (mines self)
    (safes self) k (MINE_COUNT self).

Definition mark_mine (self : t) (cell : Cell) : t :=
  MinesweeperAI (height self) (width self) (moves_made self)
    ({[cell]} ∪ mines self) (safes self)
    (map (Sentence.mark_mine cell) (knowledge self)) (MINE_COUNT self).

Definition mark_safe (self : t) (cell : Cell) : t :=
  MinesweeperAI (height self) (width self) (moves_made self)
    (mines self) ({[cell]} ∪ safes self)
    (map (Sentence.mark_safe cell) (knowledge self)) (MINE_COUNT self).

Definition remove_duplicates (duplicates : list Sentence.t) : list Sentence.t :=
  foldl (fun unique_list number =>
           if decide (number ∈ unique_list) then unique_list
           else unique_list ++ [number])
        [] duplicates.

(** The bounds are the literal [range(0,8)] of the source; the method
    does not read [self.height] or [self.width]. *)
Definition get_nearby_cells (self : t) (cell : Cell) : list Cell :=
  foldl (fun cells x =>
    foldl (fun cells y =>
      if decide (x ∉ range 0 8 ∨ y ∉ range 0 8) then cells
      else if decide ((x, y) ≠ cell) then cells ++ [(x, y)] else cells)
      cells (range (cell.2 - 1) (cell.2 + 2)))
    [] (range (cell.1 - 1) (cell.1 + 2)).

(** Lines 190-196: the sentences derived from the new one. *)
Definition additional_sentences (sentence : Sentence.t)
    (kb : list Sentence.t) : list Sentence.t :=
  foldl (fun acc knowledge =>
    if decide (Sentence.cells sentence ⊆ Sentence.cells knowledge)
    then acc ++ [Sentence.sub knowledge sentence]
    else if decide (Sentence.cells knowledge ⊆ Sentence.cells sentence)
    then acc ++ [Sentence.sub sentence knowledge]
    else acc)
    [] kb.

(** Lines 198-200. *)
Definition append_new (kb additional : list Sentence.t) : list Sentence.t :=
  foldl (fun kb a => if decide (a ∈ kb) then kb else kb ++ [a]) kb additional.

(** Body of the closure loop (lines 209-217) for the sentence at hand.
    [nk] is the deep copy being filtered; the marks go to [self], whose
    [knowledge] is still the list the copy was taken from. *)
Definition resolve (sentence : Sentence.t) (st : list Sentence.t * t)
    : list Sentence.t * t :=
  let st1 :=
    if truthy (Sentence.known_mines sentence)
    then (list_remove sentence st.1,
          foldl mark_mine st.2 (cells_of (Sentence.known_mines sentence)))
    else st in
  if truthy (Sentence.known_safes sentence)
  then (list_remove sentence st1.1,
        foldl mark_safe st1.2 (cells_of (Sentence.known_safes sentence)))
  else st1.

(** [for sentence in new_knowledge: ...] with the list changing under
    the iterator: Python's list iterator keeps an index [i], stops when
    [i] reaches the current length, and otherwise yields the element at
    [i] and increments [i].  [fuel] bounds the number of iterations; the
    initial length is enough (see [closure_fuel] below). *)
Fixpoint closure_loop (fuel i : nat) (st : list Sentence.t * t)
    : list Sentence.t * t :=
  match fuel with
  | O => st
  | S fuel' =>
      match st.1 !! i with
      | None => st
      | Some sentence => closure_loop fuel' (S i) (resolve sentence st)
      end
  end.

(** Lines 182-204 of [add_knowledge]: everything before the deep copy. *)
Definition pre_closure (self : t) (cell : Cell) (count : Z) : t :=
  let self := set_moves_made self ({[cell]} ∪ moves_made self) in
  let self := mark_safe self cell in
  let free_neighbours :=
    filter (fun x => x ∉ moves_made self) (get_nearby_cells self cell) in
  let sentence := Sentence.init free_neighbours count in
  let additional := additional_sentences sentence (knowledge self) in
  let self := set_knowledge self (append_new (knowledge self) additional) in
  let self := set_knowledge self (knowledge self ++ [sentence]) in
  set_knowledge self (remove_duplicates (knowledge self)).

(** Lines 206-219: deep copy, sweep, and [self.knowledge = new_knowledge]. *)
Definition closure (self : t) : t :=
  let new_knowledge := knowledge self in
  let r := closure_loop (length new_knowledge) 0 (new_knowledge, self) in
  set_knowledge r.2 r.1.

Definition add_knowledge (self : t) (cell : Cell) (count : Z) : t :=
  closure (pre_closure self cell count).

(** Result of a move query: a returned value or a raised exception. *)
Inductive outcome : Type :=
| Return (r : option Cell)
| IndexError.

Definition make_safe_move (self : t) : option Cell :=
  match elements (safes self ∖ moves_made self) with
  | c :: _ => Some c
  | [] => None
  end.

(** [int(x / self.width)] truncates the quotient towards zero
    ([Z.quot]); [%] takes the sign of the divisor ([Z.modulo]).  The
    float division is exact on every board whose size fits a double. *)
Definition all_cells (self : t) : gset Cell :=
  list_to_set
    (map (fun x => (Z.quot x (width self), x `mod` height self))
         (range 0 (width self * height self))).

Definition possible (self : t) : list Cell :=
  elements (all_cells self ∖ moves_made self ∖ mines self).

(** [rnd] is the number the generator draws; [random.choice(seq)]
    raises [IndexError] on an empty sequence and otherwise returns
    [seq[k]] for some [k < len(seq)]. *)
Definition random_choice (rnd : nat) (seq : list Cell) : outcome :=
  match seq !! (rnd `mod` length seq)%nat with
  | Some c => Return (Some c)
  | None => IndexError
  end.

Definition make_random_move (self : t) (rnd : nat) : outcome :=
  if decide (Z.of_nat (size (mines self)) < MINE_COUNT self)
  then random_choice rnd (possible self)
  else Return None.

End MinesweeperAI.


(** ** Runs of the engine *)

(** The three operations a driver applies to a player. *)
Inductive op : Type :=
| AddKnowledge (cell : Cell) (count : Z)
| MarkMine (cell : Cell)
| MarkSafe (cell : Cell).

Definition step (self : MinesweeperAI.t) (o : op) : MinesweeperAI.t :=
  match o with
  | AddKnowledge cell count => MinesweeperAI.add_knowledge self cell count
  | MarkMine cell => MinesweeperAI.mark_mine self cell
  | MarkSafe cell => MinesweeperAI.mark_safe self cell
  end.

Definition run (self : MinesweeperAI.t) (ops : list op) : MinesweeperAI.t :=
  foldl step self ops.

(** ** Auxiliary notions used in the statements *)

(** A sentence the sweep acts on: one of the two tests of the loop body
    succeeds. *)
Definition resolved (s : Sentence.t) : bool :=
  truthy (Sentence.known_mines s) || truthy (Sentence.known_safes s).

(** The marks the loop body issues for [s]. *)
Definition apply_marks (s : Sentence.t) (self : MinesweeperAI.t) : MinesweeperAI.t :=
  if truthy (Sentence.known_mines s)
  then foldl MinesweeperAI.mark_mine self (elements (Sentence.cells s))
  else if truthy (Sentence.known_safes s)
  then foldl MinesweeperAI.mark_safe self (elements (Sentence.cells s))
  else self.

(** What the index-driven loop amounts to on a duplicate-free list: a
    resolved sentence is dropped and its successor is passed over
    unexamined, because the removal shifts the successor into the slot the
    iterator has already left. *)
Fixpoint sweep (l : list Sentence.t) (self : MinesweeperAI.t) {struct l}
    : list Sentence.t * MinesweeperAI.t :=
  match l with
  | [] => ([], self)
  | s :: rest =>
      if resolved s then
        match rest with
        | [] => ([], apply_marks s self)
        | x :: rest' =>
            let r := sweep rest' (apply_marks s self) in (x :: r.1, r.2)
        end
      else let r := sweep rest self in (s :: r.1, r.2)
  end.

(** The constraint invariant of a sentence. *)
Definition count_in_range (s : Sentence.t) : Prop :=
  0 ≤ Sentence.count s ≤ Z.of_nat (size (Sentence.cells s)).

(** [s] is a true statement about the mine set [M]. *)
Definition holds_on (M : gset Cell) (s : Sentence.t) : Prop :=
  Sentence.count s = Z.of_nat (size (Sentence.cells s ∩ M)).

(** A board as [Minesweeper.__init__] builds it: every mine lies on the
    grid. *)
Definition board_wf (B : Minesweeper.t) : Prop :=
  set_Forall (fun c : Cell => (0 ≤ c.1 < Minesweeper.height B) ∧
                              (0 ≤ c.2 < Minesweeper.width B))
             (Minesweeper.mines B).

(** An operation that tells the player the truth about board [B]:
    [add_knowledge] is called on a revealed cell of the grid that is not a
    mine, with the count the board reports for it; [mark_mine] on a mine;
    [mark_safe] on a cell that is not one. *)
Definition truthful (B : Minesweeper.t) (o : op) : Prop :=
  match o with
  | AddKnowledge cell count =>
      (0 ≤ cell.1 < Minesweeper.height B) ∧ (0 ≤ cell.2 < Minesweeper.width B) ∧
      Minesweeper.is_mine B cell = false ∧
      count = Minesweeper.nearby_mines B cell
  | MarkMine cell => Minesweeper.is_mine B cell = true
  | MarkSafe cell => Minesweeper.is_mine B cell = false
  end.

#[global] Instance truthful_dec B o : Decision (truthful B o).
Proof. destruct o; simpl; apply _. Defined.

(** The nine cells of the 3x3 block around [cell], in loop order. *)
Definition block (cell : Cell) : list Cell :=
  x ← range (cell.1 - 1) (cell.1 + 2);
  (fun y => (x, y)) <$> range (cell.2 - 1) (cell.2 + 2).

(** What the player knows agrees with the mine set [M]. *)
Definition agrees_with (M : gset Cell) (self : MinesweeperAI.t) : Prop :=
  Forall (holds_on M) (MinesweeperAI.knowledge self) ∧
  MinesweeperAI.moves_made self ## M ∧
  MinesweeperAI.safes self ## M ∧
  MinesweeperAI.mines self ⊆ M.

(** ** Minesweeper.__init__: placing the mines *)

(** How the constructor of the board ends: with a board, with the
    [ValueError] of [random.randrange] on an empty range, or still inside
    the [while] loop when the draws supplied are used up. *)
Inductive init_outcome : Type :=
| Built (B : Minesweeper.t)
| ValueError
| Drawing.

(** [random.randrange(n)]: some integer of [range(n)], here the one the
    generator's raw output [raw] selects; [None] stands for the
    [ValueError] raised when [n ≤ 0]. *)
Definition randrange (raw : nat) (n : Z) : option Z :=
  if decide (0 < n) then Some (Z.of_nat raw `mod` n) else None.

(** The loop [while len(self.mines) != mines], one pair of draws per
    iteration; [placed] is [self.mines], which the grid mirrors. *)
Fixpoint place_mines (height width mines : Z) (draws : list (nat * nat))
    (placed : gset Cell) : init_outcome :=
  if decide (Z.of_nat (size placed) = mines)
  then Built (Minesweeper.Minesweeper height width placed)
  else
    match draws with
    | [] => Drawing
    | (a, b) :: draws' =>
        match randrange a height with
        | None => ValueError
        | Some i =>
            match randrange b width with
            | None => ValueError
            | Some j =>
                if Minesweeper.board
                     (Minesweeper.Minesweeper height width placed) i j
                then place_mines height width mines draws' placed
                else place_mines height width mines draws'
                       ({[ (i, j) ]} ∪ placed)
            end
        end
    end.

(** [Minesweeper(height, width, mines)] *)
Definition Minesweeper_init (height width mines : Z)
    (draws : list (nat * nat)) : init_outcome :=
  place_mines height width mines draws ∅.

(** The cell a pair of raw draws selects on a [height] x [width] grid. *)
Definition drawn_cell (height width : Z) (d : nat * nat) : Cell :=
  (Z.of_nat d.1 `mod` height, Z.of_nat d.2 `mod` width).

(** * Proofs *)

Import MinesweeperAI.

(** Reads a field of a state rebuilt by [set_knowledge]. *)
Ltac fields :=
  unfold set_knowledge;
  cbn [height width moves_made mines safes knowledge MINE_COUNT].

(** Settles a closed decidable statement by evaluation. *)
Ltac by_compute :=
  cbv zeta;
  match goal with |- ?P => apply (bool_decide_unpack P) end;
  vm_compute; exact I.

(** ** Marking keeps the configuration and only adds to the sets *)

Lemma foldl_mark_mine_fields self l :
  height (foldl mark_mine self l) = height self ∧
  width (foldl mark_mine self l) = width self ∧
  moves_made (foldl mark_mine self l) = moves_made self ∧
  mines (foldl mark_mine self l) = list_to_set l ∪ mines self ∧
  safes (foldl mark_mine self l) = safes self ∧
  MINE_COUNT (foldl mark_mine self l) = MINE_COUNT self.
Proof.
  revert self. induction l as [|c l IH]; intros self; simpl.
  - repeat split; set_solver.
  - destruct (IH (mark_mine self c)) as (-> & -> & -> & -> & -> & ->).
    simpl. repeat split; set_solver.
Qed.

Lemma foldl_mark_safe_fields self l :
  height (foldl mark_safe self l) = height self ∧
  width (foldl mark_safe self l) = width self ∧
  moves_made (foldl mark_safe self l) = moves_made self ∧
  mines (foldl mark_safe self l) = mines self ∧
  safes (foldl mark_safe self l) = list_to_set l ∪ safes self ∧
  MINE_COUNT (foldl mark_safe self l) = MINE_COUNT self.
Proof.
  revert self. induction l as [|c l IH]; intros self; simpl.
  - repeat split; set_solver.
  - destruct (IH (mark_safe self c)) as (-> & -> & -> & -> & -> & ->).
    simpl. repeat split; set_solver.
Qed.

Lemma truthy_Some o : truthy o = true → ∃ s, o = Some s ∧ s ≠ ∅.
Proof.
  destruct o as [s|]; simpl; [|done].
  intros H%bool_decide_eq_true. eauto.
Qed.

Lemma known_mines_Some s X :
  Sentence.known_mines s = Some X →
  X = Sentence.cells s ∧ Sentence.count s = Z.of_nat (size (Sentence.cells s)).
Proof. unfold Sentence.known_mines. case_decide; naive_solver. Qed.

Lemma known_safes_Some s X :
  Sentence.known_safes s = Some X →
  X = Sentence.cells s ∧ Sentence.count s = 0.
Proof. unfold Sentence.known_safes. case_decide; naive_solver. Qed.

(** The two tests of the loop body never succeed together, so the second
    [remove] never looks for an element that is already gone. *)
Lemma truthy_exclusive s :
  truthy (Sentence.known_mines s) = true →
  truthy (Sentence.known_safes s) = false.
Proof.
  intros (X & HX & Hne)%truthy_Some.
  apply known_mines_Some in HX as [-> Hc].
  destruct (truthy (Sentence.known_safes s)) eqn:E; [|done].
  apply truthy_Some in E as (Y & HY & _).
  apply known_safes_Some in HY as [_ H0].
  assert (size (Sentence.cells s) ≠ 0%nat) by (apply size_non_empty_iff; set_solver).
  lia.
Qed.

Lemma cells_of_truthy_mines s :
  truthy (Sentence.known_mines s) = true →
  cells_of (Sentence.known_mines s) = elements (Sentence.cells s).
Proof.
  intros (X & HX & _)%truthy_Some. rewrite HX.
  by apply known_mines_Some in HX as [-> _].
Qed.

Lemma cells_of_truthy_safes s :
  truthy (Sentence.known_safes s) = true →
  cells_of (Sentence.known_safes s) = elements (Sentence.cells s).
Proof.
  intros (X & HX & _)%truthy_Some. rewrite HX.
  by apply known_safes_Some in HX as [-> _].
Qed.

Lemma resolve_eq s nk self :
  resolve s (nk, self) =
  (if resolved s then list_remove s nk else nk, apply_marks s self).
Proof.
  unfold resolve, resolved, apply_marks; simpl.
  destruct (truthy (Sentence.known_mines s)) eqn:Em; simpl.
  - rewrite (truthy_exclusive s Em), (cells_of_truthy_mines s Em). done.
  - destruct (truthy (Sentence.known_safes s)) eqn:Es; simpl; [|done].
    by rewrite (cells_of_truthy_safes s Es).
Qed.

Lemma apply_marks_unresolved s self :
  resolved s = false → apply_marks s self = self.
Proof.
  unfold resolved, apply_marks. intros [-> ->]%orb_false_iff. done.
Qed.

Lemma apply_marks_fields s self :
  height (apply_marks s self) = height self ∧
  width (apply_marks s self) = width self ∧
  moves_made (apply_marks s self) = moves_made self ∧
  mines self ⊆ mines (apply_marks s self) ∧
  safes self ⊆ safes (apply_marks s self) ∧
  MINE_COUNT (apply_marks s self) = MINE_COUNT self.
Proof.
  unfold apply_marks.
  destruct (truthy (Sentence.known_mines s)).
  { destruct (foldl_mark_mine_fields self (elements (Sentence.cells s)))
      as (-> & -> & -> & -> & -> & ->). repeat split; set_solver. }
  destruct (truthy (Sentence.known_safes s)).
  { destruct (foldl_mark_safe_fields self (elements (Sentence.cells s)))
      as (-> & -> & -> & -> & -> & ->). repeat split; set_solver. }
  repeat split; set_solver.
Qed.

(** ** The index-driven loop and the structural sweep *)

Lemma list_remove_middle (pre rest : list Sentence.t) s :
  s ∉ pre → list_remove s (pre ++ s :: rest) = pre ++ rest.
Proof.
  induction pre as [|y pre IH]; simpl; intros Hnin.
  - by rewrite decide_True.
  - rewrite decide_False by set_solver. f_equal. apply IH. set_solver.
Qed.

Lemma closure_loop_sweep fuel : ∀ suf pre self,
  NoDup (pre ++ suf) → (length suf ≤ fuel)%nat →
  closure_loop fuel (length pre) (pre ++ suf, self) =
  (pre ++ (sweep suf self).1, (sweep suf self).2).
Proof.
  induction fuel as [|fuel IH]; intros suf pre self Hnd Hlen.
  { destruct suf; simpl in *; [done | lia]. }
  destruct suf as [|s rest]; simpl.
  { rewrite app_nil_r, lookup_ge_None_2 by lia. done. }
  rewrite list_lookup_middle by done.
  rewrite resolve_eq.
  assert (s ∉ pre) as Hs.
  { apply NoDup_app in Hnd as (_ & Hd & _). intros Hin.
    apply (Hd s Hin). left. }
  destruct (resolved s) eqn:Er.
  - rewrite list_remove_middle by done.
    destruct rest as [|x rest']; simpl.
    + rewrite app_nil_r. destruct fuel; simpl; [done|].
      rewrite lookup_ge_None_2 by lia. done.
    + replace (pre ++ x :: rest') with ((pre ++ [x]) ++ rest')
        by (by rewrite <- app_assoc).
      replace (S (length pre)) with (length (pre ++ [x]))
        by (rewrite length_app; simpl; lia).
      rewrite IH; [by rewrite <- app_assoc | | simpl in *; lia].
      rewrite <- app_assoc. simpl.
      apply NoDup_app in Hnd as (H1 & H2 & H3).
      apply NoDup_cons in H3 as [H3 H4].
      apply NoDup_app. split_and!; [done | | done].
      intros y Hy Hy'. apply (H2 y Hy). by right.
  - rewrite (apply_marks_unresolved s self Er).
    replace (pre ++ s :: rest) with ((pre ++ [s]) ++ rest)
      by (by rewrite <- app_assoc).
    replace (S (length pre)) with (length (pre ++ [s]))
      by (rewrite length_app; simpl; lia).
    rewrite IH; [simpl; by rewrite <- app_assoc | | simpl in *; lia].
    by rewrite <- app_assoc.
Qed.

Lemma list_remove_length (x : Sentence.t) l :
  (length (list_remove x l) ≤ length l)%nat.
Proof.
  induction l as [|y l IH]; simpl; [lia|]. case_decide; simpl; lia.
Qed.

Lemma resolve_length s st : (length (resolve s st).1 ≤ length st.1)%nat.
Proof.
  destruct st as [nk self]. rewrite resolve_eq. simpl.
  destruct (resolved s); [apply list_remove_length | lia].
Qed.

(** The loop ends by itself: any fuel that covers the part of the list
    still ahead of the iterator gives the same result. *)
Lemma closure_loop_stable fuel : ∀ fuel' i st,
  (length st.1 - i ≤ fuel)%nat → (length st.1 - i ≤ fuel')%nat →
  closure_loop fuel i st = closure_loop fuel' i st.
Proof.
  induction fuel as [|fuel IH]; intros fuel' i st Hf Hf'.
  - destruct fuel'; simpl; [done|].
    by rewrite lookup_ge_None_2 by lia.
  - destruct fuel' as [|fuel']; simpl.
    + by rewrite lookup_ge_None_2 by lia.
    + destruct (st.1 !! i) as [s|] eqn:Hi; [|done].
      apply lookup_lt_Some in Hi. pose proof (resolve_length s st).
      apply IH; lia.
Qed.

Lemma remove_duplicates_acc (l : list Sentence.t) : ∀ acc,
  NoDup acc →
  NoDup (foldl (fun unique_list number =>
                  if decide (number ∈ unique_list) then unique_list
                  else unique_list ++ [number]) acc l).
Proof.
  induction l as [|s l IH]; intros acc Hacc; simpl; [done|].
  apply IH. case_decide; [done|].
  apply NoDup_app. split_and!; [done | set_solver | apply NoDup_singleton].
Qed.

Lemma remove_duplicates_NoDup l : NoDup (remove_duplicates l).
Proof. apply remove_duplicates_acc, NoDup_nil_2. Qed.

(** With the initial length as fuel the loop runs to its end: it is the
    sweep of the whole snapshot. *)
Lemma closure_fuel self :
  NoDup (knowledge self) →
  closure self =
  set_knowledge (sweep (knowledge self) self).2 (sweep (knowledge self) self).1.
Proof.
  intros Hnd. unfold closure.
  by rewrite (closure_loop_sweep _ (knowledge self) [] self Hnd).
Qed.

Lemma pre_closure_NoDup self cell count :
  NoDup (knowledge (pre_closure self cell count)).
Proof. apply remove_duplicates_NoDup. Qed.

Lemma add_knowledge_sweep self cell count :
  let pre := pre_closure self cell count in
  add_knowledge self cell count =
  set_knowledge (sweep (knowledge pre) pre).2 (sweep (knowledge pre) pre).1.
Proof. apply closure_fuel, pre_closure_NoDup. Qed.

Lemma sweep_sublist l : ∀ self, (sweep l self).1 `sublist_of` l.
Proof.
  induction (well_founded_ltof _ length l) as [l _ IH]. unfold ltof in IH.
  intros self. destruct l as [|s rest]; simpl; [done|].
  destruct (resolved s).
  - destruct rest as [|x rest']; simpl.
    + by apply sublist_nil_l.
    + apply sublist_cons, sublist_skip. apply IH. simpl. lia.
  - simpl. apply sublist_skip, IH. simpl. lia.
Qed.

Lemma sweep_fields l : ∀ self,
  height (sweep l self).2 = height self ∧
  width (sweep l self).2 = width self ∧
  moves_made (sweep l self).2 = moves_made self ∧
  mines self ⊆ mines (sweep l self).2 ∧
  safes self ⊆ safes (sweep l self).2 ∧
  MINE_COUNT (sweep l self).2 = MINE_COUNT self.
Proof.
  induction (well_founded_ltof _ length l) as [l _ IH]. unfold ltof in IH.
  intros self. destruct l as [|s rest]; simpl; [done|].
  pose proof (apply_marks_fields s self) as (Hh & Hw & Hm & Hmi & Hsa & Hc).
  destruct (resolved s).
  - destruct rest as [|x rest']; simpl; [done|].
    destruct (IH rest' ltac:(simpl; lia) (apply_marks s self))
      as (-> & -> & -> & ? & ? & ->).
    repeat split; try done; set_solver.
  - simpl. apply IH. simpl. lia.
Qed.

(** ** Where the sentences of the knowledge base come from *)

Lemma elem_of_remove_duplicates_acc (l : list Sentence.t) : ∀ acc x,
  x ∈ foldl (fun unique_list number =>
               if decide (number ∈ unique_list) then unique_list
               else unique_list ++ [number]) acc l →
  x ∈ acc ∨ x ∈ l.
Proof.
  induction l as [|s l IH]; intros acc x; simpl; [by left|].
  intros [Hx|Hx]%IH; [|right; by right].
  case_decide; [by left|].
  apply elem_of_app in Hx as [Hx|Hx]; [by left|].
  right. apply list_elem_of_singleton in Hx as ->. left.
Qed.

Lemma elem_of_remove_duplicates l x : x ∈ remove_duplicates l → x ∈ l.
Proof.
  intros [Hx|Hx]%elem_of_remove_duplicates_acc; [|done].
  by apply elem_of_nil in Hx.
Qed.

Lemma elem_of_append_new additional : ∀ kb x,
  x ∈ append_new kb additional → x ∈ kb ∨ x ∈ additional.
Proof.
  unfold append_new.
  induction additional as [|a l IH]; intros kb x; simpl; [by left|].
  intros [Hx|Hx]%IH; [|right; by right].
  case_decide; [by left|].
  apply elem_of_app in Hx as [Hx|Hx]; [by left|].
  right. apply list_elem_of_singleton in Hx as ->. left.
Qed.

Lemma elem_of_additional_acc sentence kb : ∀ acc x,
  x ∈ foldl (fun acc knowledge =>
      if decide (Sentence.cells sentence ⊆ Sentence.cells knowledge)
      then acc ++ [Sentence.sub knowledge sentence]
      else if decide (Sentence.cells knowledge ⊆ Sentence.cells sentence)
      then acc ++ [Sentence.sub sentence knowledge]
      else acc) acc kb →
  x ∈ acc ∨
  ∃ k, k ∈ kb ∧
    ((Sentence.cells sentence ⊆ Sentence.cells k ∧ x = Sentence.sub k sentence) ∨
     (Sentence.cells k ⊆ Sentence.cells sentence ∧ x = Sentence.sub sentence k)).
Proof.
  induction kb as [|k kb IH]; intros acc x; simpl; [by left|].
  intros [Hx|(k' & Hk' & Hx)]%IH.
  - repeat case_decide; try (by left);
      (apply elem_of_app in Hx as [Hx|Hx]; [by left|]);
      apply list_elem_of_singleton in Hx as ->;
      right; exists k; (split; [left|]); eauto.
  - right. exists k'. split; [by right | done].
Qed.

(** A derived sentence is the difference of two sentences one of whose
    cell sets contains the other's. *)
Lemma elem_of_additional_sentences sentence kb x :
  x ∈ additional_sentences sentence kb →
  ∃ k, k ∈ kb ∧
    ((Sentence.cells sentence ⊆ Sentence.cells k ∧ x = Sentence.sub k sentence) ∨
     (Sentence.cells k ⊆ Sentence.cells sentence ∧ x = Sentence.sub sentence k)).
Proof.
  intros [Hx|Hx]%elem_of_additional_acc; [|done].
  by apply elem_of_nil in Hx.
Qed.

(** Every sentence held before the sweep is an old sentence with [cell]
    struck out, the new sentence, or the difference of the two. *)
Lemma elem_of_pre_closure self cell count x :
  let kb := map (Sentence.mark_safe cell) (knowledge self) in
  let sentence :=
    Sentence.init
      (filter (fun c => c ∉ {[cell]} ∪ moves_made self)
              (get_nearby_cells self cell))
      count in
  x ∈ knowledge (pre_closure self cell count) →
  x ∈ kb ∨ x = sentence ∨
  ∃ k, k ∈ kb ∧
    ((Sentence.cells sentence ⊆ Sentence.cells k ∧ x = Sentence.sub k sentence) ∨
     (Sentence.cells k ⊆ Sentence.cells sentence ∧ x = Sentence.sub sentence k)).
Proof.
  intros kb sentence. unfold pre_closure; simpl.
  intros Hx%elem_of_remove_duplicates.
  apply elem_of_app in Hx as [Hx|Hx].
  - apply elem_of_append_new in Hx as [Hx|Hx]; [by left|].
    right; right. apply elem_of_additional_sentences in Hx. exact Hx.
  - right; left. by apply list_elem_of_singleton in Hx.
Qed.

Lemma pre_closure_fields self cell count :
  height (pre_closure self cell count) = height self ∧
  width (pre_closure self cell count) = width self ∧
  moves_made (pre_closure self cell count) = {[cell]} ∪ moves_made self ∧
  mines (pre_closure self cell count) = mines self ∧
  safes (pre_closure self cell count) = {[cell]} ∪ safes self ∧
  MINE_COUNT (pre_closure self cell count) = MINE_COUNT self.
Proof. done. Qed.

Lemma elem_of_add_knowledge self cell count x :
  x ∈ knowledge (add_knowledge self cell count) →
  x ∈ knowledge (pre_closure self cell count).
Proof.
  rewrite add_knowledge_sweep; fields. intros Hx.
  eapply elem_of_sublist; [exact Hx | apply sweep_sublist].
Qed.

Lemma add_knowledge_fields self cell count :
  height (add_knowledge self cell count) = height self ∧
  width (add_knowledge self cell count) = width self ∧
  moves_made (add_knowledge self cell count) = {[cell]} ∪ moves_made self ∧
  mines self ⊆ mines (add_knowledge self cell count) ∧
  {[cell]} ∪ safes self ⊆ safes (add_knowledge self cell count) ∧
  MINE_COUNT (add_knowledge self cell count) = MINE_COUNT self.
Proof.
  rewrite add_knowledge_sweep; fields.
  destruct (sweep_fields (knowledge (pre_closure self cell count))
              (pre_closure self cell count)) as (-> & -> & -> & ? & ? & ->).
  done.
Qed.

(** ** What the sweep resolves *)

Lemma apply_marks_resolves s self :
  (Sentence.count s = 0 → Sentence.cells s ⊆ safes (apply_marks s self)) ∧
  (Sentence.count s = Z.of_nat (size (Sentence.cells s)) →
   Sentence.cells s ⊆ mines (apply_marks s self)).
Proof.
  destruct (decide (Sentence.cells s = ∅)) as [He|Hne].
  { rewrite He. split; intros _; set_solver. }
  assert (size (Sentence.cells s) ≠ 0%nat) as Hsz
    by (apply size_non_empty_iff; set_solver).
  unfold apply_marks, Sentence.known_mines, Sentence.known_safes.
  split; intros Hc.
  - rewrite decide_False by lia. simpl.
    rewrite decide_True by done. simpl.
    rewrite bool_decide_eq_true_2 by done.
    destruct (foldl_mark_safe_fields self (elements (Sentence.cells s)))
      as (_ & _ & _ & _ & -> & _).
    intros c Hin. apply elem_of_union_l, elem_of_list_to_set.
    by apply elem_of_elements.
  - rewrite decide_True by done. simpl.
    rewrite bool_decide_eq_true_2 by done.
    destruct (foldl_mark_mine_fields self (elements (Sentence.cells s)))
      as (_ & _ & _ & -> & _ & _).
    intros c Hin. apply elem_of_union_l, elem_of_list_to_set.
    by apply elem_of_elements.
Qed.

(** A sentence whose predecessor in the list is not resolved is examined by
    the sweep, and its marks are never taken back. *)
Lemma sweep_marks l : ∀ self i s,
  l !! i = Some s →
  (∀ j p, i = S j → l !! j = Some p → resolved p = false) →
  (Sentence.count s = 0 → Sentence.cells s ⊆ safes (sweep l self).2) ∧
  (Sentence.count s = Z.of_nat (size (Sentence.cells s)) →
   Sentence.cells s ⊆ mines (sweep l self).2).
Proof.
  induction (well_founded_ltof _ length l) as [l _ IH]. unfold ltof in IH.
  intros self i s Hi Hprev.
  destruct l as [|s0 rest]; [done|].
  destruct i as [|j]; simpl in Hi.
  - injection Hi as ->.
    pose proof (apply_marks_resolves s self) as [Hs Hm].
    assert (mines (apply_marks s self) ⊆ mines (sweep (s :: rest) self).2 ∧
            safes (apply_marks s self) ⊆ safes (sweep (s :: rest) self).2)
      as [Hmm Hss].
    { simpl. destruct (resolved s) eqn:Er.
      - destruct rest as [|x rest']; simpl; [done|].
        destruct (sweep_fields rest' (apply_marks s self))
          as (_ & _ & _ & ? & ? & _). done.
      - rewrite (apply_marks_unresolved s self Er). simpl.
        destruct (sweep_fields rest self) as (_ & _ & _ & ? & ? & _). done. }
    split; intros Hc; [specialize (Hs Hc) | specialize (Hm Hc)]; set_solver.
  - simpl. destruct (resolved s0) eqn:Er.
    + destruct j as [|k].
      { exfalso. specialize (Hprev 0%nat s0 eq_refl eq_refl). congruence. }
      destruct rest as [|x rest']; [done|]. simpl in Hi. simpl.
      apply (IH rest' ltac:(simpl; lia) _ k s Hi).
      intros m p -> Hp. apply (Hprev (S (S m)) p); done.
    + simpl. apply (IH rest ltac:(simpl; lia) _ j s Hi).
      intros m p -> Hp. apply (Hprev (S m) p); done.
Qed.

(** ** C9 *)

(** C9.  After [add_knowledge] returns, [self.knowledge] holds no two
    value-equal sentences.  ([Sentence.__eq__] compares the cell sets and
    the counts, which is equality of the records, so this is [NoDup].) *)
Theorem add_knowledge_no_duplicates self cell count :
  NoDup (knowledge (add_knowledge self cell count)).
Proof.
  rewrite add_knowledge_sweep; fields.
  eapply sublist_NoDup; [apply pre_closure_NoDup | apply sweep_sublist].
Qed.

(** ** C10 *)

(** C10.  After [add_knowledge(c, n)] the cell [c] is in [moves_made] and
    in [safes], whatever the state before; if [c] was a known mine it
    still is one, so it then sits in [mines] and [safes] at once. *)
Theorem add_knowledge_marks_cell self cell count :
  cell ∈ moves_made (add_knowledge self cell count) ∧
  cell ∈ safes (add_knowledge self cell count) ∧
  (cell ∈ mines self →
   cell ∈ mines (add_knowledge self cell count) ∩
          safes (add_knowledge self cell count)).
Proof.
  destruct (add_knowledge_fields self cell count) as (_ & _ & -> & ? & ? & _).
  set_solver.
Qed.

Lemma add_knowledge_marks_cell_witness :
  (0, 0) ∈ mines (mark_mine (init 8 8) (0, 0)) ∧
  (0, 0) ∈ mines (add_knowledge (mark_mine (init 8 8) (0, 0)) (0, 0) 0) ∩
           safes (add_knowledge (mark_mine (init 8 8) (0, 0)) (0, 0) 0).
Proof.
  assert ((0, 0) ∈ mines (mark_mine (init 8 8) (0, 0))) as H by by_compute.
  split; [exact H|].
  exact (proj2 (proj2 (add_knowledge_marks_cell
                         (mark_mine (init 8 8) (0, 0)) (0, 0) 0)) H).
Defined.

(** ** C1 *)

(** C1, refuted as stated, on an 8x8 board and truthful observations.
    - Mines at (1,0) and (1,1), observations [(0,0) ↦ 2] and [(0,1) ↦ 2]:
      the snapshot of the second call holds [{(0,2),(1,2)} = 0] right
      behind the resolved [{(1,0),(1,1)} = 2]; the iterator passes over
      it, and its cells are not marked safe.
    - One mine at (1,0), observations [(0,0) ↦ 1] and [(0,2) ↦ 0]: the
      second call marks (0,1) and (1,1) safe, which turns the live copy of
      [{(0,1),(1,0),(1,1)} = 1] into [{(1,0)} = 1]; yet (1,0) is not
      marked a mine, and the sentence kept is the unreduced one. *)
Lemma closure_is_a_single_pass :
  (let self := add_knowledge (init 8 8) (0, 0) 2 in
   let s := Sentence.Sentence {[ (0, 2); (1, 2) ]} 0 in
   s ∈ knowledge (pre_closure self (0, 1) 2) ∧
   Sentence.count s = 0 ∧
   ¬ (Sentence.cells s ⊆ safes (add_knowledge self (0, 1) 2))) ∧
  (let self := add_knowledge (init 8 8) (0, 0) 1 in
   let pre := pre_closure self (0, 2) 0 in
   let live := (closure_loop (length (knowledge pre)) 0 (knowledge pre, pre)).2 in
   Sentence.Sentence {[ (1, 0) ]} 1 ∈ knowledge live ∧
   (1, 0) ∉ mines (add_knowledge self (0, 2) 0) ∧
   knowledge (add_knowledge self (0, 2) 0)
     = [Sentence.Sentence {[ (0, 1); (1, 0); (1, 1) ]} 1]).
Proof. split; by_compute. Qed.

(** C1, amended.  The sweep is a single pass over the snapshot taken
    before any marking.  Every sentence of the snapshot that is not
    directly behind a resolved one is examined: if its count is 0 all its
    cells are in [safes] when [add_knowledge] returns, and if its count
    equals the number of its cells they are all in [mines].  Nothing is
    said of a sentence directly behind a resolved one, nor of sentences
    that would only be resolved by the marks of the same call. *)
Theorem add_knowledge_resolves_examined self cell count i s :
  knowledge (pre_closure self cell count) !! i = Some s →
  (∀ j p, i = S j →
          knowledge (pre_closure self cell count) !! j = Some p →
          resolved p = false) →
  (Sentence.count s = 0 →
   Sentence.cells s ⊆ safes (add_knowledge self cell count)) ∧
  (Sentence.count s = Z.of_nat (size (Sentence.cells s)) →
   Sentence.cells s ⊆ mines (add_knowledge self cell count)).
Proof.
  intros Hi Hprev. rewrite add_knowledge_sweep; fields.
  by apply (sweep_marks _ _ i s).
Qed.

Lemma add_knowledge_resolves_examined_witness :
  knowledge (pre_closure (add_knowledge (init 8 8) (0, 0) 2) (0, 1) 2) !! 0%nat
    = Some (Sentence.Sentence {[ (1, 0); (1, 1) ]} 2) ∧
  {[ (1, 0); (1, 1) ]} ⊆
    mines (add_knowledge (add_knowledge (init 8 8) (0, 0) 2) (0, 1) 2).
Proof.
  assert (knowledge (pre_closure (add_knowledge (init 8 8) (0, 0) 2) (0, 1) 2)
            !! 0%nat = Some (Sentence.Sentence {[ (1, 0); (1, 1) ]} 2)) as H
    by by_compute.
  split; [exact H|].
  refine (proj2 (add_knowledge_resolves_examined
                   (add_knowledge (init 8 8) (0, 0) 2) (0, 1) 2 0
                   (Sentence.Sentence {[ (1, 0); (1, 1) ]} 2) H _) _).
  - intros j p Hj. discriminate Hj.
  - vm_compute. reflexivity.
Defined.

(** ** C2 *)

Lemma mark_safe_cells c s :
  Sentence.cells (Sentence.mark_safe c s) = Sentence.cells s ∖ {[c]}.
Proof. unfold Sentence.mark_safe. case_decide; simpl; set_solver. Qed.

Lemma mark_mine_cells c s :
  Sentence.cells (Sentence.mark_mine c s) = Sentence.cells s ∖ {[c]}.
Proof. unfold Sentence.mark_mine. case_decide; simpl; set_solver. Qed.

Lemma run_snoc self ops o : run self (ops ++ [o]) = step (run self ops) o.
Proof. unfold run. by rewrite foldl_app. Qed.

(** No operation leaves a cell of [moves_made] inside a sentence. *)
Lemma step_purged_of_moves self o :
  (∀ s, s ∈ knowledge self → Sentence.cells s ## moves_made self) →
  ∀ s, s ∈ knowledge (step self o) →
       Sentence.cells s ## moves_made (step self o).
Proof.
  intros Hinv s. destruct o as [cell count|cell|cell]; cbn [step].
  - intros Hs%elem_of_add_knowledge.
    destruct (add_knowledge_fields self cell count) as (_ & _ & -> & _).
    apply elem_of_pre_closure in Hs.
    assert (∀ k, k ∈ map (Sentence.mark_safe cell) (knowledge self) →
                 Sentence.cells k ## {[cell]} ∪ moves_made self) as Hkb.
    { intros k (k0 & -> & Hk0)%list_elem_of_fmap.
      rewrite mark_safe_cells. specialize (Hinv k0 Hk0). set_solver. }
    assert (Sentence.cells
              (Sentence.init
                 (filter (fun c => c ∉ {[cell]} ∪ moves_made self)
                         (get_nearby_cells self cell)) count)
              ## {[cell]} ∪ moves_made self) as Hnew.
    { simpl. intros c Hc%elem_of_list_to_set Hc'.
      apply list_elem_of_filter in Hc as [Hc _]. done. }
    destruct Hs as [Hs | [-> | (k & Hk & [[_ ->] | [_ ->]])]].
    + by apply Hkb.
    + done.
    + specialize (Hkb k Hk). simpl. set_solver.
    + simpl in *. set_solver.
  - intros (k0 & -> & Hk0)%list_elem_of_fmap.
    rewrite mark_mine_cells. specialize (Hinv k0 Hk0). set_solver.
  - intros (k0 & -> & Hk0)%list_elem_of_fmap.
    rewrite mark_safe_cells. specialize (Hinv k0 Hk0). set_solver.
Qed.

Lemma run_purged_of_moves h w ops :
  ∀ s, s ∈ knowledge (run (init h w) ops) →
       Sentence.cells s ## moves_made (run (init h w) ops).
Proof.
  induction ops as [|o ops IH] using rev_ind.
  - simpl. intros s Hs. by apply elem_of_nil in Hs.
  - rewrite run_snoc. by apply step_purged_of_moves.
Qed.

(** C2, refuted as stated.  After the truthful observations [(0,0) ↦ 0]
    and [(2,2) ↦ 1] (one mine at (3,3), say) the cell (1,1) is a known
    safe and still belongs to the sentence of the second observation:
    the new sentence leaves out the cells of [moves_made] only. *)
Lemma known_safe_cell_kept_in_sentence :
  let self := add_knowledge (add_knowledge (init 8 8) (0, 0) 0) (2, 2) 1 in
  let s := Sentence.Sentence
             {[ (1, 1); (1, 2); (1, 3); (2, 1); (2, 3); (3, 1); (3, 2); (3, 3) ]}
             1 in
  (1, 1) ∈ mines self ∪ safes self ∧
  s ∈ knowledge self ∧
  (1, 1) ∈ Sentence.cells s.
Proof. by_compute. Qed.

(** C2, amended.  In every state the player reaches, no cell of
    [moves_made] appears in a sentence of [self.knowledge]; and right
    after [mark_mine(c)] or [mark_safe(c)] the cell [c] appears in none.
    Cells of [mines ∪ safes] that have not been moved on may remain. *)
Theorem sentences_purged_of_moves h w ops self c :
  (∀ s, s ∈ knowledge (run (init h w) ops) →
        Sentence.cells s ## moves_made (run (init h w) ops)) ∧
  (∀ s, s ∈ knowledge (mark_mine self c) → c ∉ Sentence.cells s) ∧
  (∀ s, s ∈ knowledge (mark_safe self c) → c ∉ Sentence.cells s).
Proof.
  split_and!.
  - apply run_purged_of_moves.
  - simpl. intros s (k0 & -> & _)%list_elem_of_fmap.
    rewrite mark_mine_cells. set_solver.
  - simpl. intros s (k0 & -> & _)%list_elem_of_fmap.
    rewrite mark_safe_cells. set_solver.
Qed.

Lemma sentences_purged_of_moves_witness :
  Sentence.Sentence {[ (0, 1); (1, 0); (1, 1) ]} 1
    ∈ knowledge (run (init 8 8) [AddKnowledge (0, 0) 1]) ∧
  {[ (0, 1); (1, 0); (1, 1) ]} ## moves_made (run (init 8 8) [AddKnowledge (0, 0) 1]).
Proof.
  assert (Sentence.Sentence {[ (0, 1); (1, 0); (1, 1) ]} 1
            ∈ knowledge (run (init 8 8) [AddKnowledge (0, 0) 1])) as H
    by by_compute.
  split; [exact H|].
  exact (proj1 (sentences_purged_of_moves 8 8 [AddKnowledge (0, 0) 1]
                  (init 8 8) (0, 0)) _ H).
Defined.

(** ** C8 *)

(** C8, refuted as stated.  After [mark_mine(c)] and [mark_safe(c)] the
    only safe move is [c], which is a known mine. *)
Lemma safe_move_returns_known_mine :
  let self := mark_safe (mark_mine (init 8 8) (3, 4)) (3, 4) in
  make_safe_move self = Some (3, 4) ∧ (3, 4) ∈ mines self.
Proof. by_compute. Qed.

(** C8, amended.  [make_safe_move] returns [None] exactly when
    [safes − moves_made] is empty, and otherwise a cell of [safes] that is
    not in [moves_made]; that cell is not in [mines] provided [mines] and
    [safes] are disjoint, which the method itself does not check. *)
Theorem make_safe_move_spec self :
  (make_safe_move self = None ↔ safes self ∖ moves_made self = ∅) ∧
  (∀ c, make_safe_move self = Some c →
        c ∈ safes self ∧ c ∉ moves_made self ∧
        ((mines self ## safes self) → c ∉ mines self)).
Proof.
  unfold make_safe_move.
  destruct (elements (safes self ∖ moves_made self)) as [|c0 l] eqn:E.
  - apply elements_empty_inv in E. apply leibniz_equiv in E.
    split; [done|]. intros c Hc. discriminate Hc.
  - assert (c0 ∈ safes self ∖ moves_made self) as Hin.
    { apply elem_of_elements. rewrite E. left. }
    split.
    + split; [intros H; discriminate H|]. intros He. rewrite He in Hin.
      by apply not_elem_of_empty in Hin.
    + intros c [= <-]. set_solver.
Qed.

Lemma make_safe_move_spec_witness :
  make_safe_move (add_knowledge (init 8 8) (0, 0) 0) = Some (0, 1) ∧
  mines (add_knowledge (init 8 8) (0, 0) 0)
    ## safes (add_knowledge (init 8 8) (0, 0) 0) ∧
  (0, 1) ∉ mines (add_knowledge (init 8 8) (0, 0) 0).
Proof.
  assert (make_safe_move (add_knowledge (init 8 8) (0, 0) 0) = Some (0, 1))
    as H by (vm_compute; reflexivity).
  assert (mines (add_knowledge (init 8 8) (0, 0) 0)
            ## safes (add_knowledge (init 8 8) (0, 0) 0)) as Hd by by_compute.
  split_and!; [exact H | exact Hd |].
  exact (proj2 (proj2 (proj2 (make_safe_move_spec
           (add_knowledge (init 8 8) (0, 0) 0)) (0, 1) H)) Hd).
Defined.

(** ** C7 *)

Lemma size_inter_le (X M : gset Cell) : (size (X ∩ M) ≤ size X)%nat.
Proof. apply subseteq_size. set_solver. Qed.

Lemma holds_on_in_range M s : holds_on M s → count_in_range s.
Proof.
  unfold holds_on, count_in_range. intros ->.
  pose proof (size_inter_le (Sentence.cells s) M). lia.
Qed.

Lemma sub_holds_on M A B :
  holds_on M A → holds_on M B →
  Sentence.cells A ⊆ Sentence.cells B →
  holds_on M (Sentence.sub B A).
Proof.
  unfold holds_on. simpl. intros HA HB Hsub. rewrite HA, HB.
  assert ((Sentence.cells B ∖ Sentence.cells A) ∩ M =
          (Sentence.cells B ∩ M) ∖ (Sentence.cells A ∩ M)) as -> by set_solver.
  assert (Sentence.cells A ∩ M ⊆ Sentence.cells B ∩ M) as Hi by set_solver.
  pose proof (size_difference _ _ Hi). pose proof (subseteq_size _ _ Hi).
  lia.
Qed.

(** C7, refuted as stated.  [{x} = 1] and [{x} = 0] both satisfy
    [0 ≤ count ≤ |cells|] and the cell sets are included in each other,
    yet their difference has no cells and count -1. *)
Lemma sub_leaves_the_range :
  let A := Sentence.Sentence {[ (0, 0) ]} 1 in
  let B := Sentence.Sentence {[ (0, 0) ]} 0 in
  count_in_range A ∧ count_in_range B ∧
  Sentence.cells A ⊆ Sentence.cells B ∧
  Sentence.cells (Sentence.sub B A) = ∅ ∧
  Sentence.count (Sentence.sub B A) = -1 ∧
  ¬ count_in_range (Sentence.sub B A).
Proof. unfold count_in_range. by_compute. Qed.

(** C7, amended.  If [A] and [B] are both true of one and the same mine
    set [M] (each count is the number of mines among the cells) and
    [A.cells ⊆ B.cells], then [B - A] is true of [M] as well, hence
    satisfies [0 ≤ count ≤ |cells|]; in particular its count is 0 when it
    has no cells. *)
Theorem sub_sound M A B :
  holds_on M A → holds_on M B →
  Sentence.cells A ⊆ Sentence.cells B →
  holds_on M (Sentence.sub B A) ∧
  count_in_range (Sentence.sub B A) ∧
  (Sentence.cells (Sentence.sub B A) = ∅ → Sentence.count (Sentence.sub B A) = 0).
Proof.
  intros HA HB Hsub.
  pose proof (sub_holds_on M A B HA HB Hsub) as H.
  split_and!; [done | by eapply holds_on_in_range |].
  intros He. apply holds_on_in_range in H.
  unfold count_in_range in H. rewrite He, size_empty in H. lia.
Qed.

Lemma sub_sound_witness :
  let M : gset Cell := {[ (0, 2) ]} in
  let A := Sentence.Sentence {[ (0, 0); (0, 1) ]} 0 in
  let B := Sentence.Sentence {[ (0, 0); (0, 1); (0, 2) ]} 1 in
  (holds_on M A ∧ holds_on M B ∧ Sentence.cells A ⊆ Sentence.cells B) ∧
  count_in_range (Sentence.sub B A).
Proof.
  cbv zeta.
  assert (holds_on {[ (0, 2) ]} (Sentence.Sentence {[ (0, 0); (0, 1) ]} 0))
    as HA by (vm_compute; reflexivity).
  assert (holds_on {[ (0, 2) ]}
            (Sentence.Sentence {[ (0, 0); (0, 1); (0, 2) ]} 1))
    as HB by (vm_compute; reflexivity).
  assert (Sentence.cells (Sentence.Sentence {[ (0, 0); (0, 1) ]} 0) ⊆
          Sentence.cells (Sentence.Sentence {[ (0, 0); (0, 1); (0, 2) ]} 1))
    as Hs by by_compute.
  split; [done|].
  exact (proj1 (proj2 (sub_sound _ _ _ HA HB Hs))).
Defined.

(** ** C4 *)

Lemma elem_of_range x a b : x ∈ range a b ↔ a ≤ x < b.
Proof. unfold range. rewrite elem_of_seqZ. lia. Qed.

(** C4, the code at the failing input.  A player configured for a 3x3
    grid lists, for the corner (2,2), five cells that are off that grid:
    the bounds tested are [range(0,8)], not [height] and [width]. *)
Theorem get_nearby_cells_ignores_configuration :
  get_nearby_cells (init 3 3) (2, 2) =
    [(1, 1); (1, 2); (1, 3); (2, 1); (2, 3); (3, 1); (3, 2); (3, 3)] ∧
  ¬ (3 < height (init 3 3)) ∧ ¬ (3 < width (init 3 3)).
Proof. split; [vm_compute; reflexivity | simpl; lia]. Qed.

(** ** C3 *)

Lemma random_choice_nonempty rnd seq :
  seq ≠ [] → ∃ c, random_choice rnd seq = Return (Some c) ∧ c ∈ seq.
Proof.
  intros Hne. unfold random_choice.
  assert (rnd `mod` length seq < length seq)%nat as Hlt.
  { apply Nat.mod_upper_bound. destruct seq; simpl; [done | lia]. }
  destruct (lookup_lt_is_Some_2 seq _ Hlt) as [c Hc].
  exists c. rewrite Hc. split; [done|]. by eapply list_elem_of_lookup_2.
Qed.

Lemma run_MINE_COUNT h w ops : MINE_COUNT (run (init h w) ops) = 8.
Proof.
  induction ops as [|o ops IH] using rev_ind; [done|].
  rewrite run_snoc. destruct o as [cell count|cell|cell]; cbn [step].
  - destruct (add_knowledge_fields (run (init h w) ops) cell count)
      as (_ & _ & _ & _ & _ & ->). done.
  - done.
  - done.
Qed.

(** A player for a 1x1 board that has moved on its only cell knows no
    mine and has no candidate left; [make_random_move] then raises
    [IndexError] instead of returning [None]. *)
Lemma random_move_raises_on_empty :
  let self := add_knowledge (init 1 1) (0, 0) 0 in
  all_cells self ∖ moves_made self ∖ mines self = ∅ ∧
  size (mines self) = 0%nat ∧
  make_random_move self 0 = IndexError ∧
  make_random_move self 0 ≠ Return None.
Proof. cbv zeta. split_and!; [by_compute | vm_compute; reflexivity
                              | vm_compute; reflexivity | vm_compute; discriminate]. Qed.

(** C3, the code at the failing input.  Truthful play on a 2x2 board
    whose only mine is (1,1): after the three other cells are observed
    the player knows the mine, so the number of known mines has reached
    the board's total and no candidate cell is left.  [make_random_move]
    compares with its own [MINE_COUNT = 8], takes the drawing branch and
    raises [IndexError] where [None] is due. *)
Theorem random_move_raises_after_truthful_play :
  let B := Minesweeper.Minesweeper 2 2 {[ (1, 1) ]} in
  let ops := [AddKnowledge (0, 0) 1; AddKnowledge (0, 1) 1;
              AddKnowledge (1, 0) 1] in
  let self := run (init 2 2) ops in
  board_wf B ∧ Forall (truthful B) ops ∧
  mines self = Minesweeper.mines B ∧
  all_cells self ∖ moves_made self ∖ mines self = ∅ ∧
  MINE_COUNT self = 8 ∧
  ∀ rnd, make_random_move self rnd = IndexError.
Proof.
  cbv zeta.
  assert (possible (run (init 2 2) [AddKnowledge (0, 0) 1; AddKnowledge (0, 1) 1;
                                    AddKnowledge (1, 0) 1]) = []) as Hp
    by (vm_compute; reflexivity).
  split_and!; [unfold board_wf; by_compute | by_compute | by_compute
              | by_compute | apply run_MINE_COUNT |].
  intros rnd. unfold make_random_move. rewrite run_MINE_COUNT, Hp.
  rewrite decide_True by by_compute. done.
Qed.

(** What [make_random_move] does away from that case.  The cut-off is the
    player's own [MINE_COUNT], which [__init__] sets to 8 whatever the
    board: in every state the player reaches, [make_random_move] returns
    [None] once 8 mines are known; with fewer known mines and a non-empty
    candidate set [all_cells − moves_made − mines] it returns a cell of
    that set, hence never a cell of [mines ∪ moves_made]. *)
Theorem make_random_move_spec h w ops rnd :
  (8 ≤ Z.of_nat (size (mines (run (init h w) ops))) →
   make_random_move (run (init h w) ops) rnd = Return None) ∧
  (Z.of_nat (size (mines (run (init h w) ops))) < 8 →
   all_cells (run (init h w) ops) ∖ moves_made (run (init h w) ops)
     ∖ mines (run (init h w) ops) ≠ ∅ →
   ∃ c, make_random_move (run (init h w) ops) rnd = Return (Some c) ∧
        c ∈ all_cells (run (init h w) ops) ∖ moves_made (run (init h w) ops)
              ∖ mines (run (init h w) ops) ∧
        c ∉ mines (run (init h w) ops) ∪ moves_made (run (init h w) ops)).
Proof.
  unfold make_random_move. rewrite run_MINE_COUNT.
  set (self := run (init h w) ops). split.
  - intros Hge. by rewrite decide_False by lia.
  - intros Hlt Hne. rewrite decide_True by lia.
    destruct (random_choice_nonempty rnd (possible self)) as (c & Hc & Hin).
    { unfold possible. intros He. apply Hne.
      apply elements_empty_inv in He. by apply leibniz_equiv in He. }
    exists c. split; [done|].
    unfold possible in Hin. apply elem_of_elements in Hin.
    split; [done | set_solver].
Qed.

Lemma make_random_move_spec_witness :
  let found := [MarkMine (0, 0); MarkMine (0, 1); MarkMine (0, 2);
                MarkMine (0, 3); MarkMine (0, 4); MarkMine (0, 5);
                MarkMine (0, 6); MarkMine (0, 7)] in
  (8 ≤ Z.of_nat (size (mines (run (init 8 8) found))) ∧
   make_random_move (run (init 8 8) found) 0 = Return None) ∧
  (Z.of_nat (size (mines (run (init 2 2) [AddKnowledge (0, 0) 0]))) < 8 ∧
   ∃ c, make_random_move (run (init 2 2) [AddKnowledge (0, 0) 0]) 5
          = Return (Some c) ∧
        c ∉ mines (run (init 2 2) [AddKnowledge (0, 0) 0])
              ∪ moves_made (run (init 2 2) [AddKnowledge (0, 0) 0])).
Proof.
  cbv zeta. split.
  - assert (8 ≤ Z.of_nat (size (mines (run (init 8 8)
              [MarkMine (0, 0); MarkMine (0, 1); MarkMine (0, 2);
               MarkMine (0, 3); MarkMine (0, 4); MarkMine (0, 5);
               MarkMine (0, 6); MarkMine (0, 7)])))) as H by by_compute.
    split; [exact H|].
    exact (proj1 (make_random_move_spec 8 8 _ 0) H).
  - assert (Z.of_nat (size (mines (run (init 2 2) [AddKnowledge (0, 0) 0]))) < 8)
      as H by by_compute.
    assert (all_cells (run (init 2 2) [AddKnowledge (0, 0) 0])
              ∖ moves_made (run (init 2 2) [AddKnowledge (0, 0) 0])
              ∖ mines (run (init 2 2) [AddKnowledge (0, 0) 0]) ≠ ∅)
      as Hne by by_compute.
    split; [exact H|].
    destruct (proj2 (make_random_move_spec 2 2 [AddKnowledge (0, 0) 0] 5) H Hne)
      as (c & Hc & _ & Hnin).
    exists c. split; [exact Hc | exact Hnin].
Defined.

(** ** Truthful play: the knowledge agrees with the board *)

Lemma is_mine_true B c :
  Minesweeper.is_mine B c = true ↔ c ∈ Minesweeper.mines B.
Proof.
  unfold Minesweeper.is_mine, Minesweeper.board. destruct c as [i j]; simpl.
  apply bool_decide_eq_true.
Qed.

Lemma is_mine_false B c :
  Minesweeper.is_mine B c = false ↔ c ∉ Minesweeper.mines B.
Proof.
  unfold Minesweeper.is_mine, Minesweeper.board. destruct c as [i j]; simpl.
  apply bool_decide_eq_false.
Qed.

Lemma size_inter_full (X M : gset Cell) : size (X ∩ M) = size X → X ⊆ M.
Proof.
  intros Hsz. pose proof (size_difference_alt X M) as Hd.
  assert (size (X ∖ M) = 0%nat) as H0 by lia.
  apply size_empty_inv in H0. set_solver.
Qed.

Lemma size_inter_zero (X M : gset Cell) : size (X ∩ M) = 0%nat → X ## M.
Proof. intros H0%size_empty_inv. set_solver. Qed.

Lemma mark_safe_holds_on M c s :
  c ∉ M → holds_on M s → holds_on M (Sentence.mark_safe c s).
Proof.
  unfold holds_on, Sentence.mark_safe. intros Hc Hs.
  case_decide; [|done]. simpl. rewrite Hs. do 2 f_equal. set_solver.
Qed.

Lemma mark_mine_holds_on M c s :
  c ∈ M → holds_on M s → holds_on M (Sentence.mark_mine c s).
Proof.
  unfold holds_on, Sentence.mark_mine. intros Hc Hs.
  case_decide as Hin; [|done]. simpl. rewrite Hs.
  assert ((Sentence.cells s ∖ {[c]}) ∩ M = (Sentence.cells s ∩ M) ∖ {[c]})
    as -> by set_solver.
  assert ({[c]} ⊆ Sentence.cells s ∩ M) as Hi by set_solver.
  pose proof (size_difference _ _ Hi) as Hd.
  pose proof (subseteq_size _ _ Hi) as Hle.
  rewrite size_singleton in Hd, Hle. lia.
Qed.

Lemma apply_marks_agrees M s self :
  holds_on M s → safes self ## M → mines self ⊆ M →
  safes (apply_marks s self) ## M ∧ mines (apply_marks s self) ⊆ M.
Proof.
  unfold holds_on, apply_marks. intros Hs Hsafe Hmine.
  destruct (truthy (Sentence.known_mines s)) eqn:Em.
  { apply truthy_Some in Em as (X & HX & _).
    apply known_mines_Some in HX as [_ Hc].
    assert (Sentence.cells s ⊆ M) by (apply size_inter_full; lia).
    destruct (foldl_mark_mine_fields self (elements (Sentence.cells s)))
      as (_ & _ & _ & -> & -> & _).
    split; [done|]. intros c [Hc'%elem_of_list_to_set|Hc']%elem_of_union.
    - apply elem_of_elements in Hc'. set_solver.
    - set_solver. }
  destruct (truthy (Sentence.known_safes s)) eqn:Es; [|done].
  apply truthy_Some in Es as (X & HX & _).
  apply known_safes_Some in HX as [_ Hc].
  assert (Sentence.cells s ## M) by (apply size_inter_zero; lia).
  destruct (foldl_mark_safe_fields self (elements (Sentence.cells s)))
    as (_ & _ & _ & -> & -> & _).
  split; [|done]. intros c [Hc'%elem_of_list_to_set|Hc']%elem_of_union.
  - apply elem_of_elements in Hc'. set_solver.
  - set_solver.
Qed.

Lemma sweep_agrees M l : ∀ self,
  Forall (holds_on M) l → safes self ## M → mines self ⊆ M →
  safes (sweep l self).2 ## M ∧ mines (sweep l self).2 ⊆ M.
Proof.
  induction (well_founded_ltof _ length l) as [l _ IH]. unfold ltof in IH.
  intros self Hl Hsafe Hmine.
  destruct l as [|s rest]; simpl; [done|].
  apply Forall_cons in Hl as [Hs Hrest].
  destruct (apply_marks_agrees M s self Hs Hsafe Hmine) as [Hsafe' Hmine'].
  destruct (resolved s).
  - destruct rest as [|x rest']; simpl; [done|].
    apply Forall_cons in Hrest as [_ Hrest'].
    apply IH; [simpl; lia | done..].
  - simpl. apply IH; [simpl; lia | done..].
Qed.

(** ** The two neighbour loops, as filters of the 3x3 block *)

Lemma get_nearby_inner cell x ys : ∀ acc,
  foldl (fun cells y =>
           if decide (x ∉ range 0 8 ∨ y ∉ range 0 8) then cells
           else if decide ((x, y) ≠ cell) then cells ++ [(x, y)] else cells)
        acc ys =
  acc ++ filter (fun p : Cell => ¬ (p.1 ∉ range 0 8 ∨ p.2 ∉ range 0 8) ∧ p ≠ cell)
                ((fun y => (x, y)) <$> ys).
Proof.
  induction ys as [|y ys IH]; intros acc; simpl.
  - by rewrite app_nil_r.
  - rewrite IH. destruct (decide (x ∉ range 0 8 ∨ y ∉ range 0 8)) as [Hb|Hb].
    + rewrite filter_cons_False; [done|]. simpl. tauto.
    + destruct (decide ((x, y) ≠ cell)) as [Hne|He].
      * rewrite filter_cons_True by done. by rewrite <- app_assoc.
      * rewrite filter_cons_False; [done|]. tauto.
Qed.

Lemma get_nearby_outer cell xs ys : ∀ acc,
  foldl (fun cells x =>
    foldl (fun cells y =>
             if decide (x ∉ range 0 8 ∨ y ∉ range 0 8) then cells
             else if decide ((x, y) ≠ cell) then cells ++ [(x, y)] else cells)
          cells ys)
    acc xs =
  acc ++ filter (fun p : Cell => ¬ (p.1 ∉ range 0 8 ∨ p.2 ∉ range 0 8) ∧ p ≠ cell)
                (x ← xs; (fun y => (x, y)) <$> ys).
Proof.
  induction xs as [|x xs IH]; intros acc.
  - simpl. by rewrite app_nil_r.
  - rewrite bind_cons, filter_app. cbn [foldl].
    rewrite IH, get_nearby_inner. by rewrite <- app_assoc.
Qed.

Lemma get_nearby_cells_block self cell :
  get_nearby_cells self cell =
  filter (fun p : Cell => ¬ (p.1 ∉ range 0 8 ∨ p.2 ∉ range 0 8) ∧ p ≠ cell)
         (block cell).
Proof. unfold get_nearby_cells, block. by rewrite get_nearby_outer. Qed.

Lemma elem_of_block (cell p : Cell) :
  p ∈ block cell ↔
  (cell.1 - 1 ≤ p.1 ≤ cell.1 + 1) ∧ (cell.2 - 1 ≤ p.2 ≤ cell.2 + 1).
Proof.
  unfold block. rewrite list_elem_of_bind. split.
  - intros (x & (y & -> & Hy%elem_of_range)%list_elem_of_fmap
              & Hx%elem_of_range). simpl. lia.
  - intros [Hx Hy]. exists p.1. split; [|apply elem_of_range; lia].
    apply list_elem_of_fmap. exists p.2.
    split; [by destruct p | apply elem_of_range; lia].
Qed.

(** What [get_nearby_cells] lists: the cells next to [cell], [cell] itself
    excluded, that lie on the fixed 8x8 grid; each of them once. *)
Lemma elem_of_get_nearby_cells self (cell p : Cell) :
  p ∈ get_nearby_cells self cell ↔
  p ≠ cell ∧
  (cell.1 - 1 ≤ p.1 ≤ cell.1 + 1) ∧ (cell.2 - 1 ≤ p.2 ≤ cell.2 + 1) ∧
  (0 ≤ p.1 < 8) ∧ (0 ≤ p.2 < 8).
Proof.
  rewrite get_nearby_cells_block, list_elem_of_filter, elem_of_block.
  rewrite !elem_of_range. split.
  - intros ((Hb & Hne) & Hx & Hy). split_and!; [done | lia..].
  - intros (Hne & Hx & Hy & H1 & H2). split_and!; [lia | done | lia..].
Qed.

Lemma nearby_mines_inner B cell i ys : ∀ acc,
  foldl (fun count j =>
           if decide ((i, j) = cell) then count
           else if decide ((0 ≤ i < Minesweeper.height B) ∧
                           (0 ≤ j < Minesweeper.width B))
           then (if Minesweeper.board B i j then count + 1 else count)
           else count)
        acc ys =
  acc + Z.of_nat (length (filter
          (fun p : Cell => p ≠ cell ∧
             ((0 ≤ p.1 < Minesweeper.height B) ∧
              (0 ≤ p.2 < Minesweeper.width B)) ∧
             p ∈ Minesweeper.mines B)
          ((fun j => (i, j)) <$> ys))).
Proof.
  induction ys as [|j ys IH]; intros acc; [simpl; lia|].
  rewrite fmap_cons. cbn [foldl]. rewrite IH. unfold Minesweeper.board.
  destruct (decide ((i, j) = cell)) as [He|Hne].
  { rewrite filter_cons_False; [done|]. tauto. }
  destruct (decide ((0 ≤ i < Minesweeper.height B) ∧
                    (0 ≤ j < Minesweeper.width B))) as [Hb|Hb].
  - destruct (bool_decide ((i, j) ∈ Minesweeper.mines B)) eqn:Em.
    + apply bool_decide_eq_true in Em.
      rewrite filter_cons_True by done. cbn [length]. lia.
    + apply bool_decide_eq_false in Em.
      rewrite filter_cons_False; [done|]. tauto.
  - rewrite filter_cons_False; [done|]. simpl. tauto.
Qed.

Lemma nearby_mines_outer B cell xs ys : ∀ acc,
  foldl (fun count i =>
    foldl (fun count j =>
             if decide ((i, j) = cell) then count
             else if decide ((0 ≤ i < Minesweeper.height B) ∧
                             (0 ≤ j < Minesweeper.width B))
             then (if Minesweeper.board B i j then count + 1 else count)
             else count)
          count ys)
    acc xs =
  acc + Z.of_nat (length (filter
          (fun p : Cell => p ≠ cell ∧
             ((0 ≤ p.1 < Minesweeper.height B) ∧
              (0 ≤ p.2 < Minesweeper.width B)) ∧
             p ∈ Minesweeper.mines B)
          (i ← xs; (fun j => (i, j)) <$> ys))).
Proof.
  induction xs as [|x xs IH]; intros acc; [simpl; lia|].
  rewrite bind_cons, filter_app, length_app. cbn [foldl].
  rewrite IH, nearby_mines_inner. lia.
Qed.

Lemma nearby_mines_block B cell :
  Minesweeper.nearby_mines B cell =
  Z.of_nat (length (filter
    (fun p : Cell => p ≠ cell ∧
       ((0 ≤ p.1 < Minesweeper.height B) ∧ (0 ≤ p.2 < Minesweeper.width B)) ∧
       p ∈ Minesweeper.mines B)
    (block cell))).
Proof.
  unfold Minesweeper.nearby_mines, block. by rewrite nearby_mines_outer.
Qed.

Lemma block_NoDup cell : NoDup (block cell).
Proof.
  unfold block, range. apply NoDup_bind.
  - intros x1 x2 y _ _ (y1 & -> & _)%list_elem_of_fmap
      (y2 & [= ->] & _)%list_elem_of_fmap. done.
  - intros x _. apply NoDup_fmap_2; [|apply NoDup_seqZ].
    intros y1 y2 [= ->]. done.
  - apply NoDup_seqZ.
Qed.

Lemma get_nearby_cells_NoDup self cell : NoDup (get_nearby_cells self cell).
Proof. rewrite get_nearby_cells_block. apply NoDup_filter, block_NoDup. Qed.

Lemma size_list_to_set_inter (l : list Cell) (M : gset Cell) :
  NoDup l →
  size (list_to_set l ∩ M : gset Cell) = length (filter (fun p => p ∈ M) l).
Proof.
  intros Hnd.
  assert (list_to_set l ∩ M = (list_to_set (filter (fun p => p ∈ M) l) : gset Cell))
    as ->.
  { apply set_eq. intros p.
    rewrite elem_of_intersection, !elem_of_list_to_set, list_elem_of_filter.
    tauto. }
  apply size_list_to_set. by apply NoDup_filter.
Qed.

(** On a board no larger than 8x8 the count the board reports for a cell
    is the number of mines among the cells the player lists for it, moves
    already made left out (no mine is ever among them). *)
Lemma observed_sentence_holds (B : Minesweeper.t) (self : t) (cell : Cell) (moves : gset Cell) :
  board_wf B →
  Minesweeper.height B ≤ 8 → Minesweeper.width B ≤ 8 →
  moves ## Minesweeper.mines B →
  holds_on (Minesweeper.mines B)
    (Sentence.init (filter (fun x => x ∉ moves) (get_nearby_cells self cell))
                   (Minesweeper.nearby_mines B cell)).
Proof.
  intros Hwf Hh Hw Hdisj. unfold holds_on, Sentence.init; simpl.
  rewrite size_list_to_set_inter
    by (rewrite get_nearby_cells_block; apply NoDup_filter, NoDup_filter,
        block_NoDup).
  rewrite nearby_mines_block, get_nearby_cells_block.
  rewrite !list_filter_filter. do 2 f_equal.
  apply list_filter_iff. intros p. rewrite !elem_of_range.
  split.
  - intros (Hne & Hb & Hin).
    split; [split; [done | set_solver] | split; [lia | done]].
  - intros ((Hin & _) & _ & Hne).
    split; [done | split; [apply (Hwf p Hin) | done]].
Qed.

(** ** Truthful operations keep the knowledge in agreement with the board *)

Lemma pre_closure_holds (B : Minesweeper.t) (self : t) (cell : Cell) :
  board_wf B →
  Minesweeper.height B ≤ 8 → Minesweeper.width B ≤ 8 →
  cell ∉ Minesweeper.mines B →
  Forall (holds_on (Minesweeper.mines B)) (knowledge self) →
  moves_made self ## Minesweeper.mines B →
  Forall (holds_on (Minesweeper.mines B))
    (knowledge (pre_closure self cell (Minesweeper.nearby_mines B cell))).
Proof.
  intros Hwf Hh Hw Hcell Hk Hmv.
  assert (∀ k, k ∈ map (Sentence.mark_safe cell) (knowledge self) →
               holds_on (Minesweeper.mines B) k) as Hkb.
  { intros k (k0 & -> & Hk0)%list_elem_of_fmap.
    apply mark_safe_holds_on; [done|].
    by apply (proj1 (Forall_forall _ _) Hk). }
  pose proof (observed_sentence_holds B self cell ({[cell]} ∪ moves_made self)
                Hwf Hh Hw ltac:(set_solver)) as Hnew.
  apply Forall_forall. intros x Hx. apply elem_of_pre_closure in Hx.
  destruct Hx as [Hx | [-> | (k & Hin & [[Hsub ->] | [Hsub ->]])]].
  - by apply Hkb.
  - exact Hnew.
  - apply sub_holds_on; [exact Hnew | by apply Hkb | done].
  - apply sub_holds_on; [by apply Hkb | exact Hnew | done].
Qed.

Lemma step_agrees (B : Minesweeper.t) (self : t) (o : op) :
  board_wf B →
  Minesweeper.height B ≤ 8 → Minesweeper.width B ≤ 8 →
  truthful B o →
  agrees_with (Minesweeper.mines B) self →
  agrees_with (Minesweeper.mines B) (step self o).
Proof.
  intros Hwf Hh Hw Ht (Hk & Hmv & Hsf & Hmi).
  destruct o as [cell count|cell|cell]; cbn [step truthful] in *.
  - destruct Ht as (_ & _ & Hnm%is_mine_false & ->).
    pose proof (pre_closure_holds B self cell Hwf Hh Hw Hnm Hk Hmv) as Hpre.
    set (pre := pre_closure self cell (Minesweeper.nearby_mines B cell)) in *.
    destruct (sweep_agrees (Minesweeper.mines B) (knowledge pre) pre Hpre)
      as [Hsf' Hmi'].
    { unfold pre. destruct (pre_closure_fields self cell
        (Minesweeper.nearby_mines B cell)) as (_ & _ & _ & _ & -> & _).
      set_solver. }
    { unfold pre. destruct (pre_closure_fields self cell
        (Minesweeper.nearby_mines B cell)) as (_ & _ & _ & -> & _ & _).
      done. }
    unfold agrees_with. rewrite add_knowledge_sweep. fold pre. fields.
    destruct (sweep_fields (knowledge pre) pre) as (_ & _ & -> & _).
    split_and!; [| | done | done].
    + apply Forall_forall. intros x Hx.
      apply (proj1 (Forall_forall _ _) Hpre).
      eapply elem_of_sublist; [exact Hx | apply sweep_sublist].
    + unfold pre. destruct (pre_closure_fields self cell
        (Minesweeper.nearby_mines B cell)) as (_ & _ & -> & _).
      set_solver.
  - apply is_mine_true in Ht. unfold agrees_with; simpl.
    split_and!; [| done | done | set_solver].
    apply Forall_forall. intros x (k0 & -> & Hk0)%list_elem_of_fmap.
    apply mark_mine_holds_on; [done|].
    by apply (proj1 (Forall_forall _ _) Hk).
  - apply is_mine_false in Ht. unfold agrees_with; simpl.
    split_and!; [| done | set_solver | done].
    apply Forall_forall. intros x (k0 & -> & Hk0)%list_elem_of_fmap.
    apply mark_safe_holds_on; [done|].
    by apply (proj1 (Forall_forall _ _) Hk).
Qed.

Lemma run_agrees (B : Minesweeper.t) (h w : Z) (ops : list op) :
  board_wf B →
  Minesweeper.height B ≤ 8 → Minesweeper.width B ≤ 8 →
  Forall (truthful B) ops →
  agrees_with (Minesweeper.mines B) (run (init h w) ops).
Proof.
  intros Hwf Hh Hw. induction ops as [|o ops IH] using rev_ind; intros Hops.
  - unfold agrees_with; simpl. split_and!; [constructor | set_solver..].
  - apply Forall_app in Hops as [Hops Ho].
    apply Forall_cons in Ho as [Ho _].
    rewrite run_snoc. apply (step_agrees B _ o Hwf Hh Hw Ho (IH Hops)).
Qed.

(** ** C5 *)

(** C5, refuted as stated.  [add_knowledge] stores the count it is given:
    after [add_knowledge((0,0), 4)] the player holds a sentence of three
    cells with count 4. *)
Lemma unchecked_count_leaves_the_range :
  let self := run (init 8 8) [AddKnowledge (0, 0) 4] in
  let s := Sentence.Sentence {[ (0, 1); (1, 0); (1, 1) ]} 4 in
  s ∈ knowledge self ∧ ¬ count_in_range s.
Proof. unfold count_in_range. by_compute. Qed.

(** C5, amended.  Let the operations tell the truth about a board of at
    most 8x8 cells: [add_knowledge] on a revealed cell that is not a mine
    with the board's own count, [mark_mine] on mines, [mark_safe] on the
    other cells.  Then in every state the player reaches, every sentence
    of [self.knowledge] satisfies [0 ≤ count ≤ |cells|]. *)
Theorem truthful_play_count_in_range (B : Minesweeper.t) (h w : Z)
    (ops : list op) (s : Sentence.t) :
  board_wf B →
  Minesweeper.height B ≤ 8 → Minesweeper.width B ≤ 8 →
  Forall (truthful B) ops →
  s ∈ knowledge (run (init h w) ops) →
  count_in_range s.
Proof.
  intros Hwf Hh Hw Hops Hs.
  destruct (run_agrees B h w ops Hwf Hh Hw Hops) as (Hk & _).
  apply (holds_on_in_range (Minesweeper.mines B)).
  by apply (proj1 (Forall_forall _ _) Hk).
Qed.

Lemma truthful_play_count_in_range_witness :
  let B := Minesweeper.Minesweeper 8 8 {[ (1, 0); (1, 1) ]} in
  let ops := [AddKnowledge (0, 0) 2; AddKnowledge (0, 1) 2] in
  let s := Sentence.Sentence {[ (0, 2); (1, 0); (1, 1); (1, 2) ]} 2 in
  (board_wf B ∧ Forall (truthful B) ops ∧ s ∈ knowledge (run (init 8 8) ops)) ∧
  count_in_range s.
Proof.
  cbv zeta.
  assert (board_wf (Minesweeper.Minesweeper 8 8 {[ (1, 0); (1, 1) ]}))
    as Hwf by (unfold board_wf; by_compute).
  assert (Forall (truthful (Minesweeper.Minesweeper 8 8 {[ (1, 0); (1, 1) ]}))
            [AddKnowledge (0, 0) 2; AddKnowledge (0, 1) 2]) as Hops
    by by_compute.
  assert (Sentence.Sentence {[ (0, 2); (1, 0); (1, 1); (1, 2) ]} 2
          ∈ knowledge (run (init 8 8)
                         [AddKnowledge (0, 0) 2; AddKnowledge (0, 1) 2]))
    as Hs by by_compute.
  split; [done|].
  refine (truthful_play_count_in_range _ 8 8 _ _ Hwf _ _ Hops Hs);
    simpl; lia.
Defined.

(** ** C6 *)

(** C6, refuted as stated.  [add_knowledge] marks the observed cell safe
    without looking at [mines]: observing a cell that was marked a mine
    leaves it in both sets. *)
Lemma observed_mine_in_both_sets :
  let self := run (init 8 8) [MarkMine (0, 0); AddKnowledge (0, 0) 0] in
  (0, 0) ∈ mines self ∩ safes self ∧ ¬ (mines self ## safes self).
Proof. by_compute. Qed.

(** C6, amended.  Under truthful operations on a board of at most 8x8
    cells (as in C5), [mines] and [safes] are disjoint in every state the
    player reaches. *)
Theorem truthful_play_disjoint (B : Minesweeper.t) (h w : Z) (ops : list op) :
  board_wf B →
  Minesweeper.height B ≤ 8 → Minesweeper.width B ≤ 8 →
  Forall (truthful B) ops →
  mines (run (init h w) ops) ## safes (run (init h w) ops).
Proof.
  intros Hwf Hh Hw Hops.
  destruct (run_agrees B h w ops Hwf Hh Hw Hops) as (_ & _ & Hsf & Hmi).
  set_solver.
Qed.

Lemma truthful_play_disjoint_witness :
  let B := Minesweeper.Minesweeper 8 8 {[ (1, 0); (1, 1) ]} in
  let ops := [AddKnowledge (0, 0) 2; MarkMine (1, 0); AddKnowledge (0, 1) 2;
              MarkSafe (0, 2)] in
  (board_wf B ∧ Forall (truthful B) ops) ∧
  mines (run (init 8 8) ops) ## safes (run (init 8 8) ops).
Proof.
  cbv zeta.
  assert (board_wf (Minesweeper.Minesweeper 8 8 {[ (1, 0); (1, 1) ]}))
    as Hwf by (unfold board_wf; by_compute).
  assert (Forall (truthful (Minesweeper.Minesweeper 8 8 {[ (1, 0); (1, 1) ]}))
            [AddKnowledge (0, 0) 2; MarkMine (1, 0); AddKnowledge (0, 1) 2;
             MarkSafe (0, 2)]) as Hops
    by by_compute.
  split; [done|].
  refine (truthful_play_disjoint _ 8 8 _ Hwf _ _ Hops); simpl; lia.
Defined.

(** ** The candidate cells of [make_random_move] *)

(** On a square board [all_cells] is the grid. *)
Lemma all_cells_square (self : t) (n : Z) (c : Cell) :
  height self = n → width self = n → 0 < n →
  c ∈ all_cells self ↔ (0 ≤ c.1 < n) ∧ (0 ≤ c.2 < n).
Proof.
  intros Hh Hw Hn. unfold all_cells. rewrite Hh, Hw.
  rewrite elem_of_list_to_set, list_elem_of_fmap. split.
  - intros (x & -> & Hx%elem_of_range). simpl.
    rewrite Z.quot_div_nonneg by lia. split.
    + split; [apply Z.div_pos; lia | apply Z.div_lt_upper_bound; lia].
    + apply Z.mod_pos_bound. lia.
  - intros [H1 H2]. destruct c as [i j]; simpl in *.
    exists (i * n + j). split.
    + rewrite Z.quot_div_nonneg by nia.
      rewrite Z.div_add_l by lia. rewrite (Z.add_comm (i * n) j), Z.mod_add by lia.
      rewrite Z.div_small, Z.mod_small by lia. f_equal. lia.
    + apply elem_of_range. nia.
Qed.

(** On a board that is not square the column is taken modulo the height:
    with 3 rows and 2 columns the candidates include (1,2), which is off
    the grid, and miss (2,0). *)
Lemma all_cells_rectangular :
  (1, 2) ∈ all_cells (init 3 2) ∧ (2, 0) ∉ all_cells (init 3 2).
Proof. by_compute. Qed.

(** * Further properties of the code *)

(** ** Sentences *)

(** X1.  Marking keeps a true sentence true: if [s] is a true statement
    about the mine set [M], so is [s] after [mark_mine(c)] for a mine [c]
    and after [mark_safe(c)] for a cell [c] that is not a mine. *)
Theorem sentence_marking_sound (M : gset Cell) (c : Cell) (s : Sentence.t) :
  holds_on M s →
  (c ∈ M → holds_on M (Sentence.mark_mine c s)) ∧
  (c ∉ M → holds_on M (Sentence.mark_safe c s)).
Proof.
  intros Hs. split; intros Hc.
  - by apply mark_mine_holds_on.
  - by apply mark_safe_holds_on.
Qed.

Lemma sentence_marking_sound_witness :
  let M : gset Cell := {[ (0, 2) ]} in
  let s := Sentence.Sentence {[ (0, 1); (0, 2); (0, 3) ]} 1 in
  (holds_on M s ∧ (0, 2) ∈ M ∧ (0, 3) ∉ M) ∧
  holds_on M (Sentence.mark_mine (0, 2) s) ∧
  holds_on M (Sentence.mark_safe (0, 3) s).
Proof.
  cbv zeta.
  assert (holds_on {[ (0, 2) ]}
            (Sentence.Sentence {[ (0, 1); (0, 2); (0, 3) ]} 1)) as Hs
    by (vm_compute; reflexivity).
  assert ((0, 2) ∈ ({[ (0, 2) ]} : gset Cell)) as Hin by by_compute.
  assert ((0, 3) ∉ ({[ (0, 2) ]} : gset Cell)) as Hnin by by_compute.
  split; [done|]. split.
  - exact (proj1 (sentence_marking_sound _ (0, 2) _ Hs) Hin).
  - exact (proj2 (sentence_marking_sound _ (0, 3) _ Hs) Hnin).
Defined.

(** X2.  What a true sentence reports is right: when [s] is a true
    statement about the mine set [M], every cell [known_mines()] returns
    is a mine and no cell [known_safes()] returns is one. *)
Theorem known_cells_sound (M : gset Cell) (s : Sentence.t) (X : gset Cell) :
  holds_on M s →
  (Sentence.known_mines s = Some X → X ⊆ M) ∧
  (Sentence.known_safes s = Some X → X ## M).
Proof.
  unfold holds_on. intros Hs. split.
  - intros [-> Hc]%known_mines_Some. apply size_inter_full. lia.
  - intros [-> Hc]%known_safes_Some. apply size_inter_zero. lia.
Qed.

Lemma known_cells_sound_witness :
  let M : gset Cell := {[ (1, 0); (1, 1) ]} in
  let s := Sentence.Sentence {[ (1, 0); (1, 1) ]} 2 in
  (holds_on M s ∧ Sentence.known_mines s = Some {[ (1, 0); (1, 1) ]}) ∧
  ({[ (1, 0); (1, 1) ]} : gset Cell) ⊆ M.
Proof.
  cbv zeta.
  assert (holds_on {[ (1, 0); (1, 1) ]}
            (Sentence.Sentence {[ (1, 0); (1, 1) ]} 2)) as Hs
    by (vm_compute; reflexivity).
  assert (Sentence.known_mines (Sentence.Sentence {[ (1, 0); (1, 1) ]} 2)
          = Some {[ (1, 0); (1, 1) ]}) as Hk by (vm_compute; reflexivity).
  split; [done|].
  exact (proj1 (known_cells_sound _ _ _ Hs) Hk).
Defined.

(** ** Marking in any order *)

Lemma sentence_mark_mine_comm a b s :
  Sentence.mark_mine a (Sentence.mark_mine b s) =
  Sentence.mark_mine b (Sentence.mark_mine a s).
Proof.
  destruct (decide (a = b)) as [->|Hne]; [done|].
  unfold Sentence.mark_mine.
  repeat (case_decide; simpl in * ); try done; try set_solver.
  f_equal; set_solver.
Qed.

Lemma sentence_mark_safe_comm a b s :
  Sentence.mark_safe a (Sentence.mark_safe b s) =
  Sentence.mark_safe b (Sentence.mark_safe a s).
Proof.
  destruct (decide (a = b)) as [->|Hne]; [done|].
  unfold Sentence.mark_safe.
  repeat (case_decide; simpl in * ); try done; try set_solver.
  f_equal; set_solver.
Qed.

Lemma mark_mine_comm self a b :
  mark_mine (mark_mine self a) b = mark_mine (mark_mine self b) a.
Proof.
  unfold mark_mine; simpl. f_equal; [set_solver|].
  rewrite <- !list_fmap_compose. apply list_fmap_ext. intros i s _. simpl.
  apply sentence_mark_mine_comm.
Qed.

Lemma mark_safe_comm self a b :
  mark_safe (mark_safe self a) b = mark_safe (mark_safe self b) a.
Proof.
  unfold mark_safe; simpl. f_equal; [set_solver|].
  rewrite <- !list_fmap_compose. apply list_fmap_ext. intros i s _. simpl.
  apply sentence_mark_safe_comm.
Qed.

Lemma foldl_comm_perm (f : t → Cell → t) (l l' : list Cell) :
  (∀ self a b, f (f self a) b = f (f self b) a) →
  l ≡ₚ l' → ∀ self, foldl f self l = foldl f self l'.
Proof.
  intros Hcomm Hp. induction Hp as [|x l l' _ IH|x y l|l l' l'' _ IH1 _ IH2];
    intros self; simpl.
  - done.
  - apply IH.
  - by rewrite Hcomm.
  - by rewrite IH1.
Qed.

(** X3.  The order in which the cells of a set are marked does not
    matter: marking the cells of two lists that are permutations of each
    other, by [mark_mine] or by [mark_safe], ends in the same state.  (The
    closure loop marks the cells of a Python set, whose iteration order
    is unspecified.) *)
Theorem marking_order_irrelevant (self : t) (l l' : list Cell) :
  l ≡ₚ l' →
  foldl mark_mine self l = foldl mark_mine self l' ∧
  foldl mark_safe self l = foldl mark_safe self l'.
Proof.
  intros Hp. split.
  - apply foldl_comm_perm; [apply mark_mine_comm | done].
  - apply foldl_comm_perm; [apply mark_safe_comm | done].
Qed.

Lemma marking_order_irrelevant_witness :
  let self := add_knowledge (init 8 8) (0, 0) 1 in
  [(0, 1); (1, 1)] ≡ₚ [(1, 1); (0, 1)] ∧
  foldl mark_mine self [(0, 1); (1, 1)] = foldl mark_mine self [(1, 1); (0, 1)].
Proof.
  cbv zeta.
  assert ([(0, 1); (1, 1)] ≡ₚ [(1, 1); ((0, 1) : Cell)]) as Hp
    by apply perm_swap.
  split; [exact Hp|].
  exact (proj1 (marking_order_irrelevant _ _ _ Hp)).
Defined.

(** ** remove_duplicates *)

Lemma remove_duplicates_acc_spec (l : list Sentence.t) : ∀ acc,
  ∃ r,
    foldl (fun unique_list number =>
             if decide (number ∈ unique_list) then unique_list
             else unique_list ++ [number]) acc l = acc ++ r ∧
    r `sublist_of` l ∧
    (∀ x, x ∈ l → x ∈ acc ∨ x ∈ r) ∧
    (NoDup l → (∀ x, x ∈ l → x ∉ acc) → r = l).
Proof.
  induction l as [|s l IH]; intros acc; simpl.
  - exists []. rewrite app_nil_r. split_and!; [done | done | | done].
    intros x Hx. by apply elem_of_nil in Hx.
  - case_decide as Hin.
    + destruct (IH acc) as (r & -> & Hsub & Hmem & Hid).
      exists r. split_and!; [done | by apply sublist_cons | |].
      * intros x [->|Hx]%elem_of_cons; [by left | by apply Hmem].
      * intros _ Hfresh. exfalso. apply (Hfresh s); [left | done].
    + destruct (IH (acc ++ [s])) as (r & -> & Hsub & Hmem & Hid).
      exists (s :: r). split_and!.
      * by rewrite <- app_assoc.
      * by apply sublist_skip.
      * intros x [->|Hx]%elem_of_cons; [right; left|].
        destruct (Hmem x Hx) as [[?|Hs]%elem_of_app|?];
          [by left | | right; by right].
        apply list_elem_of_singleton in Hs as ->. right; left.
      * intros [Hs Hnd]%NoDup_cons Hfresh. f_equal. apply Hid; [done|].
        intros x Hx [Hacc|Hxs]%elem_of_app.
        -- apply (Hfresh x); [by right | done].
        -- apply list_elem_of_singleton in Hxs as ->. done.
Qed.

Lemma remove_duplicates_acc_filter (n : nat) : ∀ (l acc : list Sentence.t),
  (length l ≤ n)%nat →
  foldl (fun unique_list number =>
           if decide (number ∈ unique_list) then unique_list
           else unique_list ++ [number]) acc l =
  acc ++ remove_duplicates (filter (fun y => y ∉ acc) l).
Proof.
  unfold remove_duplicates.
  induction n as [|n IH]; intros l acc Hlen.
  { destruct l; simpl in *; [by rewrite app_nil_r | lia]. }
  destruct l as [|y l]; [simpl; by rewrite app_nil_r|].
  simpl in Hlen. cbn [foldl]. case_decide as Hin.
  - rewrite filter_cons_False by tauto. apply IH. lia.
  - rewrite filter_cons_True by done. cbn [foldl].
    rewrite decide_False by apply not_elem_of_nil. simpl.
    rewrite (IH l (acc ++ [y])) by lia.
    rewrite (IH (filter (fun y0 => y0 ∉ acc) l) [y])
      by (pose proof (length_filter (fun y0 => y0 ∉ acc) l); lia).
    rewrite list_filter_filter, <- app_assoc. do 3 f_equal.
    apply list_filter_iff. intros x.
    rewrite elem_of_app, list_elem_of_singleton. tauto.
Qed.

(** The first sentence stays first, and what follows is the rest with
    the copies of the first struck out, de-duplicated in turn. *)
Lemma remove_duplicates_cons (x : Sentence.t) (l : list Sentence.t) :
  remove_duplicates (x :: l) =
  x :: remove_duplicates (filter (fun y => y ≠ x) l).
Proof.
  unfold remove_duplicates at 1. cbn [foldl].
  rewrite decide_False by apply not_elem_of_nil. simpl.
  rewrite (remove_duplicates_acc_filter (length l) l [x]) by done.
  simpl. do 2 f_equal. apply list_filter_iff. intros y.
  rewrite list_elem_of_singleton. tauto.
Qed.

(** X4.  [remove_duplicates] returns the sentences of its argument, each
    once, in the order of their first occurrence: the result of
    [x :: l] starts with [x] and goes on with the result of [l] without
    the copies of [x]; the result of the empty list is empty.  Hence the
    result has no duplicates, has the elements of the argument, is a
    sub-list of it, and is the argument itself when that has no
    duplicates. *)
Theorem remove_duplicates_spec (l : list Sentence.t) :
  NoDup (remove_duplicates l) ∧
  (∀ x, x ∈ remove_duplicates l ↔ x ∈ l) ∧
  remove_duplicates l `sublist_of` l ∧
  (NoDup l → remove_duplicates l = l) ∧
  (l = [] → remove_duplicates l = []) ∧
  (∀ x l', l = x :: l' →
     remove_duplicates l =
     x :: remove_duplicates (filter (fun y => y ≠ x) l')).
Proof.
  split_and!.
  - apply remove_duplicates_NoDup.
  - intros x. split; [apply elem_of_remove_duplicates|].
    intros Hx. unfold remove_duplicates.
    destruct (remove_duplicates_acc_spec l []) as (r & -> & _ & Hmem & _).
    destruct (Hmem x Hx) as [Hn|]; [by apply elem_of_nil in Hn | done].
  - unfold remove_duplicates.
    destruct (remove_duplicates_acc_spec l []) as (r & -> & Hsub & _). done.
  - intros Hnd. unfold remove_duplicates.
    destruct (remove_duplicates_acc_spec l []) as (r & -> & _ & _ & Hid).
    apply Hid; [done|]. intros x _ Hn. by apply elem_of_nil in Hn.
  - intros ->. done.
  - intros x l' ->. apply remove_duplicates_cons.
Qed.

Lemma remove_duplicates_spec_witness :
  let a := Sentence.Sentence {[ (0, 1) ]} 1 in
  let b := Sentence.Sentence {[ (0, 2) ]} 0 in
  (NoDup [a; b] ∧ remove_duplicates [a; b] = [a; b]) ∧
  remove_duplicates [a; b; a] =
    a :: remove_duplicates (filter (fun y => y ≠ a) [b; a]) ∧
  remove_duplicates [a; b; a] = [a; b].
Proof.
  cbv zeta.
  assert (NoDup [Sentence.Sentence {[ (0, 1) ]} 1;
                 Sentence.Sentence {[ (0, 2) ]} 0]) as Hnd by by_compute.
  split_and!.
  - exact Hnd.
  - exact (proj1 (proj2 (proj2 (proj2 (remove_duplicates_spec _)))) Hnd).
  - exact (proj2 (proj2 (proj2 (proj2 (proj2 (remove_duplicates_spec
             [Sentence.Sentence {[ (0, 1) ]} 1;
              Sentence.Sentence {[ (0, 2) ]} 0;
              Sentence.Sentence {[ (0, 1) ]} 1]))))) _ _ eq_refl).
  - vm_compute. reflexivity.
Defined.

(** ** The neighbours of a cell *)

Lemma filter_length_lt {A} (P : A → Prop) `{!∀ x, Decision (P x)}
    (l : list A) (x : A) :
  x ∈ l → ¬ P x → (length (filter P l) < length l)%nat.
Proof.
  induction l as [|y l IH]; intros Hx HP; [by apply elem_of_nil in Hx|].
  pose proof (length_filter P l) as Hle.
  apply elem_of_cons in Hx as [<-|Hx].
  - rewrite filter_cons_False by done. simpl. lia.
  - specialize (IH Hx HP). rewrite filter_cons. case_decide; simpl; lia.
Qed.

Lemma block_length (cell : Cell) : length (block cell) = 9%nat.
Proof.
  destruct cell as [a b]. unfold block, range. simpl fst. simpl snd.
  replace (a + 2 - (a - 1)) with 3 by lia.
  replace (b + 2 - (b - 1)) with 3 by lia.
  reflexivity.
Qed.

Lemma cell_in_block (cell : Cell) : cell ∈ block cell.
Proof. apply elem_of_block. lia. Qed.

(** X5.  [get_nearby_cells(cell)] lists, each exactly once, the cells
    that differ from [cell] by at most one row and one column and lie in
    rows and columns 0..7; it never lists [cell] itself and never more
    than 8 cells.  Neither [self.height] nor [self.width] enters. *)
Theorem get_nearby_cells_spec (self : t) (cell : Cell) :
  NoDup (get_nearby_cells self cell) ∧
  (length (get_nearby_cells self cell) ≤ 8)%nat ∧
  (∀ p, p ∈ get_nearby_cells self cell ↔
        p ≠ cell ∧
        (cell.1 - 1 ≤ p.1 ≤ cell.1 + 1) ∧ (cell.2 - 1 ≤ p.2 ≤ cell.2 + 1) ∧
        (0 ≤ p.1 < 8) ∧ (0 ≤ p.2 < 8)).
Proof.
  split_and!.
  - apply get_nearby_cells_NoDup.
  - rewrite get_nearby_cells_block.
    pose proof (filter_length_lt
      (fun p : Cell => ¬ (p.1 ∉ range 0 8 ∨ p.2 ∉ range 0 8) ∧ p ≠ cell)
      (block cell) cell (cell_in_block cell)) as Hlt.
    rewrite block_length in Hlt.
    assert (¬ (¬ (cell.1 ∉ range 0 8 ∨ cell.2 ∉ range 0 8) ∧ cell ≠ cell))
      as Hn by tauto.
    specialize (Hlt Hn). lia.
  - intros p. apply elem_of_get_nearby_cells.
Qed.

(** X6.  Being listed as a neighbour is symmetric on the 8x8 grid: for
    two cells in rows and columns 0..7, [q] is among the neighbours the
    player lists for [p] exactly when [p] is among those listed for [q]. *)
Theorem get_nearby_cells_symmetric (self : t) (p q : Cell) :
  (0 ≤ p.1 < 8) ∧ (0 ≤ p.2 < 8) →
  (0 ≤ q.1 < 8) ∧ (0 ≤ q.2 < 8) →
  q ∈ get_nearby_cells self p ↔ p ∈ get_nearby_cells self q.
Proof.
  intros Hp Hq. rewrite !elem_of_get_nearby_cells.
  split; intros (Hne & ? & ? & ? & ?); (split_and!; [congruence | lia..]).
Qed.

Lemma get_nearby_cells_symmetric_witness :
  ((0 ≤ (3, 4).1 < 8) ∧ (0 ≤ (3, 4).2 < 8)) ∧
  ((0 ≤ (4, 5).1 < 8) ∧ (0 ≤ (4, 5).2 < 8)) ∧
  ((4, 5) ∈ get_nearby_cells (init 8 8) (3, 4) ↔
   (3, 4) ∈ get_nearby_cells (init 8 8) (4, 5)).
Proof.
  assert ((0 ≤ (3, 4).1 < 8) ∧ (0 ≤ (3, 4).2 < 8)) as Hp by (simpl; lia).
  assert ((0 ≤ (4, 5).1 < 8) ∧ (0 ≤ (4, 5).2 < 8)) as Hq by (simpl; lia).
  split; [exact Hp | split; [exact Hq |]].
  exact (get_nearby_cells_symmetric (init 8 8) (3, 4) (4, 5) Hp Hq).
Defined.

(** ** The count the board reports *)

(** X7.  [nearby_mines(cell)] is the number of mines that differ from
    [cell] by at most one row and one column, [cell] itself not counted,
    and lie on the board; it is between 0 and 8.  Whether [cell] is a
    mine does not enter. *)
Theorem nearby_mines_spec (B : Minesweeper.t) (cell : Cell) :
  Minesweeper.nearby_mines B cell =
    Z.of_nat (size (filter
      (fun p : Cell =>
         p ≠ cell ∧
         ((cell.1 - 1 ≤ p.1 ≤ cell.1 + 1) ∧ (cell.2 - 1 ≤ p.2 ≤ cell.2 + 1)) ∧
         (0 ≤ p.1 < Minesweeper.height B) ∧ (0 ≤ p.2 < Minesweeper.width B))
      (Minesweeper.mines B))) ∧
  0 ≤ Minesweeper.nearby_mines B cell ≤ 8.
Proof.
  rewrite nearby_mines_block.
  set (R := fun p : Cell => p ≠ cell ∧
       ((0 ≤ p.1 < Minesweeper.height B) ∧ (0 ≤ p.2 < Minesweeper.width B)) ∧
       p ∈ Minesweeper.mines B).
  split.
  - rewrite <- (size_list_to_set (C := gset Cell))
      by apply NoDup_filter, block_NoDup.
    do 2 f_equal. apply set_eq. intros p.
    rewrite elem_of_list_to_set, list_elem_of_filter, elem_of_filter,
      elem_of_block.
    unfold R. tauto.
  - pose proof (filter_length_lt R (block cell) cell (cell_in_block cell)) as Hlt.
    rewrite block_length in Hlt.
    assert (¬ R cell) as Hn by (unfold R; tauto).
    specialize (Hlt Hn). lia.
Qed.

(** X8.  On a well-formed board of at most 8x8 cells, the count the
    board reports for a cell is the number of mines among the cells the
    player lists as its neighbours. *)
Theorem nearby_mines_matches_player (B : Minesweeper.t) (self : t) (cell : Cell) :
  board_wf B →
  Minesweeper.height B ≤ 8 → Minesweeper.width B ≤ 8 →
  Minesweeper.nearby_mines B cell =
    Z.of_nat (size (list_to_set (get_nearby_cells self cell)
                      ∩ Minesweeper.mines B : gset Cell)).
Proof.
  intros Hwf Hh Hw.
  rewrite size_list_to_set_inter by apply get_nearby_cells_NoDup.
  rewrite nearby_mines_block, get_nearby_cells_block.
  rewrite list_filter_filter. do 2 f_equal.
  apply list_filter_iff. intros p. rewrite !elem_of_range. split.
  - intros (Hne & Hb & Hin). split; [done | split; [lia | done]].
  - intros (Hin & _ & Hne). split; [done | split; [apply (Hwf p Hin) | done]].
Qed.

Lemma nearby_mines_matches_player_witness :
  let B := Minesweeper.Minesweeper 3 3 {[ (1, 1); (2, 2) ]} in
  board_wf B ∧
  Minesweeper.nearby_mines B (2, 1) =
    Z.of_nat (size (list_to_set (get_nearby_cells (init 3 3) (2, 1))
                      ∩ Minesweeper.mines B : gset Cell)).
Proof.
  cbv zeta.
  assert (board_wf (Minesweeper.Minesweeper 3 3 {[ (1, 1); (2, 2) ]})) as Hwf
    by (unfold board_wf; by_compute).
  split; [exact Hwf|].
  refine (nearby_mines_matches_player _ (init 3 3) (2, 1) Hwf _ _); simpl; lia.
Defined.

(** ** What add_knowledge changes *)

(** X9.  [add_knowledge(cell, count)] leaves [height], [width] and
    [MINE_COUNT] alone, adds exactly [cell] to [moves_made], and never
    takes a cell out of [mines] or [safes]. *)
Theorem add_knowledge_frame (self : t) (cell : Cell) (count : Z) :
  height (add_knowledge self cell count) = height self ∧
  width (add_knowledge self cell count) = width self ∧
  MINE_COUNT (add_knowledge self cell count) = MINE_COUNT self ∧
  moves_made (add_knowledge self cell count) = {[cell]} ∪ moves_made self ∧
  mines self ⊆ mines (add_knowledge self cell count) ∧
  safes self ⊆ safes (add_knowledge self cell count).
Proof.
  destruct (add_knowledge_fields self cell count)
    as (Hh & Hw & Hm & Hmi & Hsa & Hc).
  split_and!; [done | done | done | done | done | set_solver].
Qed.

Lemma apply_marks_origin s self c :
  (c ∈ mines (apply_marks s self) →
   c ∈ mines self ∨
   (Sentence.count s = Z.of_nat (size (Sentence.cells s)) ∧ c ∈ Sentence.cells s)) ∧
  (c ∈ safes (apply_marks s self) →
   c ∈ safes self ∨ (Sentence.count s = 0 ∧ c ∈ Sentence.cells s)).
Proof.
  unfold apply_marks.
  destruct (truthy (Sentence.known_mines s)) eqn:Em.
  { apply truthy_Some in Em as (X & HX & _).
    apply known_mines_Some in HX as [_ Hc].
    destruct (foldl_mark_mine_fields self (elements (Sentence.cells s)))
      as (_ & _ & _ & -> & -> & _).
    split; [|by left].
    intros [Hin%elem_of_list_to_set|Hin]%elem_of_union; [|by left].
    right. split; [done|]. by apply elem_of_elements in Hin. }
  destruct (truthy (Sentence.known_safes s)) eqn:Es; [|split; by left].
  apply truthy_Some in Es as (X & HX & _).
  apply known_safes_Some in HX as [_ Hc].
  destruct (foldl_mark_safe_fields self (elements (Sentence.cells s)))
    as (_ & _ & _ & -> & -> & _).
  split; [by left|].
  intros [Hin%elem_of_list_to_set|Hin]%elem_of_union; [|by left].
  right. split; [done|]. by apply elem_of_elements in Hin.
Qed.

Lemma sweep_origin l : ∀ self c,
  (c ∈ mines (sweep l self).2 →
   c ∈ mines self ∨
   ∃ s, s ∈ l ∧ Sentence.count s = Z.of_nat (size (Sentence.cells s)) ∧
        c ∈ Sentence.cells s) ∧
  (c ∈ safes (sweep l self).2 →
   c ∈ safes self ∨
   ∃ s, s ∈ l ∧ Sentence.count s = 0 ∧ c ∈ Sentence.cells s).
Proof.
  induction (well_founded_ltof _ length l) as [l _ IH]. unfold ltof in IH.
  intros self c. destruct l as [|s rest]; simpl; [split; by left|].
  destruct (apply_marks_origin s self c) as [Hm Hs].
  destruct (resolved s) eqn:Er.
  - destruct rest as [|x rest']; simpl.
    + split; intros Hin; [destruct (Hm Hin) as [?|[? ?]]
                         | destruct (Hs Hin) as [?|[? ?]]];
        try (by left); right; exists s; (split; [left | done]).
    + destruct (IH rest' ltac:(simpl; lia) (apply_marks s self) c) as [IHm IHs].
      split; intros Hin.
      * destruct (IHm Hin) as [Hin'|(s' & Hs' & ? & ?)].
        -- destruct (Hm Hin') as [?|[? ?]]; [by left|].
           right; exists s; (split; [left | done]).
        -- right; exists s'. split; [by do 2 right | done].
      * destruct (IHs Hin) as [Hin'|(s' & Hs' & ? & ?)].
        -- destruct (Hs Hin') as [?|[? ?]]; [by left|].
           right; exists s; (split; [left | done]).
        -- right; exists s'. split; [by do 2 right | done].
  - destruct (IH rest ltac:(simpl; lia) self c) as [IHm IHs]. simpl.
    split; intros Hin.
    + destruct (IHm Hin) as [?|(s' & Hs' & ? & ?)]; [by left|].
      right; exists s'. split; [by right | done].
    + destruct (IHs Hin) as [?|(s' & Hs' & ? & ?)]; [by left|].
      right; exists s'. split; [by right | done].
Qed.

(** X10.  [add_knowledge] marks nothing without a sentence that says
    so: a cell that is in [mines] afterwards was there before or belongs
    to a sentence of the snapshot whose count equals the number of its
    cells; a cell that is in [safes] afterwards was there before, is the
    observed cell, or belongs to a snapshot sentence of count 0. *)
Theorem add_knowledge_marks_origin (self : t) (cell : Cell) (count : Z) (c : Cell) :
  (c ∈ mines (add_knowledge self cell count) →
   c ∈ mines self ∨
   ∃ s, s ∈ knowledge (pre_closure self cell count) ∧
        Sentence.count s = Z.of_nat (size (Sentence.cells s)) ∧
        c ∈ Sentence.cells s) ∧
  (c ∈ safes (add_knowledge self cell count) →
   c ∈ safes self ∨ c = cell ∨
   ∃ s, s ∈ knowledge (pre_closure self cell count) ∧
        Sentence.count s = 0 ∧ c ∈ Sentence.cells s).
Proof.
  rewrite add_knowledge_sweep; fields.
  destruct (sweep_origin (knowledge (pre_closure self cell count))
              (pre_closure self cell count) c) as [Hm Hs].
  destruct (pre_closure_fields self cell count)
    as (_ & _ & _ & Hmi & Hsa & _).
  rewrite Hmi in Hm. rewrite Hsa in Hs.
  split; intros Hin.
  - by apply Hm.
  - destruct (Hs Hin) as [[->%elem_of_singleton|?]%elem_of_union|?]; auto.
Qed.

Lemma add_knowledge_marks_origin_witness :
  (1, 1) ∈ safes (add_knowledge (init 8 8) (0, 0) 0) ∧
  ((1, 1) ∈ safes (init 8 8) ∨ (1, 1) = (0, 0) ∨
   ∃ s, s ∈ knowledge (pre_closure (init 8 8) (0, 0) 0) ∧
        Sentence.count s = 0 ∧ (1, 1) ∈ Sentence.cells s).
Proof.
  assert ((1, 1) ∈ safes (add_knowledge (init 8 8) (0, 0) 0)) as H
    by by_compute.
  split; [exact H|].
  exact (proj2 (add_knowledge_marks_origin (init 8 8) (0, 0) 0 (1, 1)) H).
Defined.

Lemma sweep_keeps_unresolved l : ∀ self x,
  x ∈ l → resolved x = false → x ∈ (sweep l self).1.
Proof.
  induction (well_founded_ltof _ length l) as [l _ IH]. unfold ltof in IH.
  intros self x Hx Hr. destruct l as [|s rest]; [by apply elem_of_nil in Hx|].
  simpl. destruct (resolved s) eqn:Er.
  - apply elem_of_cons in Hx as [->|Hx]; [congruence|].
    destruct rest as [|y rest']; [by apply elem_of_nil in Hx|]. simpl.
    apply elem_of_cons in Hx as [->|Hx]; [left|].
    right. apply IH; [simpl; lia | done..].
  - simpl. apply elem_of_cons in Hx as [->|Hx]; [left|].
    right. apply IH; [simpl; lia | done..].
Qed.

(** X11.  [add_knowledge] only drops resolved sentences: the sentences
    held afterwards are sentences of the snapshot, in the same order, and
    every snapshot sentence for which neither [known_mines()] nor
    [known_safes()] is truthy is still held.  In particular a sentence
    without cells is never dropped. *)
Theorem add_knowledge_keeps_unresolved (self : t) (cell : Cell) (count : Z) :
  knowledge (add_knowledge self cell count)
    `sublist_of` knowledge (pre_closure self cell count) ∧
  (∀ x, x ∈ knowledge (pre_closure self cell count) →
        resolved x = false →
        x ∈ knowledge (add_knowledge self cell count)) ∧
  (∀ x, x ∈ knowledge (pre_closure self cell count) →
        Sentence.cells x = ∅ →
        x ∈ knowledge (add_knowledge self cell count)).
Proof.
  rewrite add_knowledge_sweep; fields.
  split_and!.
  - apply sweep_sublist.
  - intros x Hx Hr. by apply sweep_keeps_unresolved.
  - intros x Hx He. apply sweep_keeps_unresolved; [done|].
    unfold resolved, Sentence.known_mines, Sentence.known_safes.
    rewrite He. repeat case_decide; simpl;
      rewrite ?bool_decide_eq_false_2 by (intros Hne; by apply Hne); done.
Qed.

Lemma add_knowledge_keeps_unresolved_witness :
  let s := Sentence.Sentence {[ (0, 1); (1, 0); (1, 1) ]} 1 in
  (s ∈ knowledge (pre_closure (init 8 8) (0, 0) 1) ∧ resolved s = false) ∧
  s ∈ knowledge (add_knowledge (init 8 8) (0, 0) 1).
Proof.
  cbv zeta.
  assert (Sentence.Sentence {[ (0, 1); (1, 0); (1, 1) ]} 1
          ∈ knowledge (pre_closure (init 8 8) (0, 0) 1)) as Hin by by_compute.
  assert (resolved (Sentence.Sentence {[ (0, 1); (1, 0); (1, 1) ]} 1) = false)
    as Hr by (vm_compute; reflexivity).
  split; [done|].
  exact (proj1 (proj2 (add_knowledge_keeps_unresolved (init 8 8) (0, 0) 1))
           _ Hin Hr).
Defined.

(** ** Growth of the knowledge base *)

Lemma additional_acc_length sentence kb : ∀ acc,
  (length (foldl (fun acc knowledge =>
      if decide (Sentence.cells sentence ⊆ Sentence.cells knowledge)
      then acc ++ [Sentence.sub knowledge sentence]
      else if decide (Sentence.cells knowledge ⊆ Sentence.cells sentence)
      then acc ++ [Sentence.sub sentence knowledge]
      else acc) acc kb) ≤ length acc + length kb)%nat.
Proof.
  induction kb as [|k kb IH]; intros acc; simpl; [lia|].
  repeat case_decide;
    (etrans; [apply IH|]); rewrite ?length_app; simpl; lia.
Qed.

Lemma append_new_length additional : ∀ kb,
  (length (append_new kb additional) ≤ length kb + length additional)%nat.
Proof.
  unfold append_new.
  induction additional as [|a l IH]; intros kb; simpl; [lia|].
  case_decide; (etrans; [apply IH|]); rewrite ?length_app; simpl; lia.
Qed.

Lemma remove_duplicates_length l :
  (length (remove_duplicates l) ≤ length l)%nat.
Proof.
  unfold remove_duplicates.
  destruct (remove_duplicates_acc_spec l []) as (r & -> & Hsub & _).
  simpl. by apply sublist_length.
Qed.

(** X12.  One observation at most doubles the knowledge base and adds
    one sentence: after [add_knowledge] the player holds at most
    [2 * n + 1] sentences, where [n] is the number held before. *)
Theorem add_knowledge_growth (self : t) (cell : Cell) (count : Z) :
  (length (knowledge (add_knowledge self cell count))
   ≤ 2 * length (knowledge self) + 1)%nat.
Proof.
  rewrite add_knowledge_sweep; fields.
  etrans; [apply sublist_length, sweep_sublist|].
  unfold pre_closure; fields. cbn [mark_safe set_moves_made knowledge].
  etrans; [apply remove_duplicates_length|].
  rewrite length_app. cbn [length].
  etrans; [apply Nat.add_le_mono_r, append_new_length|].
  unfold additional_sentences.
  pose proof (additional_acc_length
    (Sentence.init
       (filter (fun x => x ∉ {[cell]} ∪ moves_made self)
               (get_nearby_cells
                  (mark_safe (set_moves_made self ({[cell]} ∪ moves_made self))
                             cell) cell)) count)
    (map (Sentence.mark_safe cell) (knowledge self)) []) as Hadd.
  rewrite length_map in *. simpl in Hadd. simpl. lia.
Qed.

(** ** Truthful play *)

(** X13.  Under truthful operations on a well-formed board of at most
    8x8 cells the player is never wrong: every cell it holds in [mines]
    is a mine of the board, no cell it holds in [safes] is one, and it has
    never moved on a mine. *)
Theorem truthful_play_sound (B : Minesweeper.t) (h w : Z) (ops : list op) :
  board_wf B →
  Minesweeper.height B ≤ 8 → Minesweeper.width B ≤ 8 →
  Forall (truthful B) ops →
  mines (run (init h w) ops) ⊆ Minesweeper.mines B ∧
  safes (run (init h w) ops) ## Minesweeper.mines B ∧
  moves_made (run (init h w) ops) ## Minesweeper.mines B.
Proof.
  intros Hwf Hh Hw Hops.
  destruct (run_agrees B h w ops Hwf Hh Hw Hops) as (_ & Hmv & Hsf & Hmi).
  done.
Qed.

Lemma truthful_play_sound_witness :
  let B := Minesweeper.Minesweeper 8 8 {[ (1, 0); (1, 1) ]} in
  let ops := [AddKnowledge (0, 0) 2; AddKnowledge (0, 1) 2] in
  (board_wf B ∧ Forall (truthful B) ops) ∧
  mines (run (init 8 8) ops) ⊆ Minesweeper.mines B.
Proof.
  cbv zeta.
  assert (board_wf (Minesweeper.Minesweeper 8 8 {[ (1, 0); (1, 1) ]}))
    as Hwf by (unfold board_wf; by_compute).
  assert (Forall (truthful (Minesweeper.Minesweeper 8 8 {[ (1, 0); (1, 1) ]}))
            [AddKnowledge (0, 0) 2; AddKnowledge (0, 1) 2]) as Hops
    by by_compute.
  split; [done|].
  refine (proj1 (truthful_play_sound _ 8 8 _ Hwf _ _ Hops)); simpl; lia.
Defined.

(** X14.  Under truthful operations on a well-formed board of at most
    8x8 cells every sentence the player holds is true of the board: its
    count is the number of mines among its cells. *)
Theorem truthful_play_sentences_true (B : Minesweeper.t) (h w : Z)
    (ops : list op) (s : Sentence.t) :
  board_wf B →
  Minesweeper.height B ≤ 8 → Minesweeper.width B ≤ 8 →
  Forall (truthful B) ops →
  s ∈ knowledge (run (init h w) ops) →
  Sentence.count s =
    Z.of_nat (size (Sentence.cells s ∩ Minesweeper.mines B)).
Proof.
  intros Hwf Hh Hw Hops Hs.
  destruct (run_agrees B h w ops Hwf Hh Hw Hops) as (Hk & _).
  by apply (proj1 (Forall_forall _ _) Hk).
Qed.

Lemma truthful_play_sentences_true_witness :
  let B := Minesweeper.Minesweeper 8 8 {[ (1, 0) ]} in
  let ops := [AddKnowledge (0, 0) 1; AddKnowledge (0, 1) 1] in
  let s := Sentence.Sentence {[ (0, 2); (1, 0); (1, 1); (1, 2) ]} 1 in
  (board_wf B ∧ Forall (truthful B) ops ∧ s ∈ knowledge (run (init 8 8) ops)) ∧
  Sentence.count s =
    Z.of_nat (size (Sentence.cells s ∩ Minesweeper.mines B)).
Proof.
  cbv zeta.
  assert (board_wf (Minesweeper.Minesweeper 8 8 {[ (1, 0) ]}))
    as Hwf by (unfold board_wf; by_compute).
  assert (Forall (truthful (Minesweeper.Minesweeper 8 8 {[ (1, 0) ]}))
            [AddKnowledge (0, 0) 1; AddKnowledge (0, 1) 1]) as Hops
    by by_compute.
  assert (Sentence.Sentence {[ (0, 2); (1, 0); (1, 1); (1, 2) ]} 1
          ∈ knowledge (run (init 8 8)
                         [AddKnowledge (0, 0) 1; AddKnowledge (0, 1) 1]))
    as Hs by by_compute.
  split; [done|].
  refine (truthful_play_sentences_true _ 8 8 _ _ Hwf _ _ Hops Hs); simpl; lia.
Defined.

(** X15.  Under truthful operations on a well-formed board of at most
    8x8 cells a safe move is safe: the cell [make_safe_move] returns is
    not in the board's set of mines, and when it lies on the board
    [is_mine] is false for it.  (On a board smaller than 8x8 the cell
    returned can lie off the board.) *)
Theorem truthful_play_safe_move (B : Minesweeper.t) (h w : Z)
    (ops : list op) (c : Cell) :
  board_wf B →
  Minesweeper.height B ≤ 8 → Minesweeper.width B ≤ 8 →
  Forall (truthful B) ops →
  make_safe_move (run (init h w) ops) = Some c →
  c ∉ Minesweeper.mines B ∧
  ((0 ≤ c.1 < Minesweeper.height B) ∧ (0 ≤ c.2 < Minesweeper.width B) →
   Minesweeper.is_mine B c = false).
Proof.
  intros Hwf Hh Hw Hops Hc.
  destruct (run_agrees B h w ops Hwf Hh Hw Hops) as (_ & _ & Hsf & _).
  assert (c ∉ Minesweeper.mines B) as Hnot.
  { unfold make_safe_move in Hc.
    destruct (elements (safes (run (init h w) ops)
                          ∖ moves_made (run (init h w) ops)))
      as [|c0 l] eqn:E; [discriminate Hc|].
    injection Hc as <-.
    assert (c0 ∈ safes (run (init h w) ops) ∖ moves_made (run (init h w) ops))
      as Hin by (apply elem_of_elements; rewrite E; left).
    set_solver. }
  split; [done|]. intros _. by apply is_mine_false.
Qed.

Lemma truthful_play_safe_move_witness :
  let B := Minesweeper.Minesweeper 8 8 {[ (3, 3) ]} in
  let ops := [AddKnowledge (0, 0) 0] in
  (board_wf B ∧ Forall (truthful B) ops ∧
   make_safe_move (run (init 8 8) ops) = Some (0, 1)) ∧
  (0, 1) ∉ Minesweeper.mines B ∧
  Minesweeper.is_mine B (0, 1) = false.
Proof.
  cbv zeta.
  assert (board_wf (Minesweeper.Minesweeper 8 8 {[ (3, 3) ]}))
    as Hwf by (unfold board_wf; by_compute).
  assert (Forall (truthful (Minesweeper.Minesweeper 8 8 {[ (3, 3) ]}))
            [AddKnowledge (0, 0) 0]) as Hops by by_compute.
  assert (make_safe_move (run (init 8 8) [AddKnowledge (0, 0) 0]) = Some (0, 1))
    as Hc by (vm_compute; reflexivity).
  split; [done|].
  destruct (truthful_play_safe_move (Minesweeper.Minesweeper 8 8 {[ (3, 3) ]})
              8 8 _ (0, 1) Hwf ltac:(simpl; lia) ltac:(simpl; lia) Hops Hc)
    as [Hnot Hmine].
  split; [exact Hnot|]. apply Hmine. simpl. lia.
Defined.

(** ** make_random_move *)

Lemma random_choice_Some rnd seq c :
  random_choice rnd seq = Return (Some c) → c ∈ seq.
Proof.
  unfold random_choice.
  destruct (seq !! (rnd `mod` length seq)%nat) as [c'|] eqn:E; [|done].
  intros [= <-]. by eapply list_elem_of_lookup_2.
Qed.

Lemma possible_nil self :
  possible self = [] ↔ all_cells self ∖ moves_made self ∖ mines self = ∅.
Proof.
  unfold possible. split.
  - intros He. apply elements_empty_inv in He. by apply leibniz_equiv in He.
  - intros ->. apply elements_empty.
Qed.

(** X16.  [make_random_move] raises [IndexError] exactly when fewer
    than [MINE_COUNT] mines are known and no candidate cell is left in
    [all_cells − moves_made − mines]; it does not return [None] then. *)
Theorem make_random_move_raises (self : t) (rnd : nat) :
  make_random_move self rnd = IndexError ↔
  Z.of_nat (size (mines self)) < MINE_COUNT self ∧
  all_cells self ∖ moves_made self ∖ mines self = ∅.
Proof.
  unfold make_random_move. rewrite <- possible_nil. case_decide as Hlt.
  - split.
    + intros He. split; [done|].
      destruct (possible self) as [|c0 l] eqn:E; [done|].
      destruct (random_choice_nonempty rnd (c0 :: l)) as (c & Hc & _);
        [done | congruence].
    + intros [_ ->]. done.
  - split; [discriminate | tauto].
Qed.

(** X17.  On a square board ([height = width = n > 0]) a cell returned by
    [make_random_move] lies on the grid and is neither a known mine nor a
    cell already moved on. *)
Theorem make_random_move_on_grid (self : t) (n : Z) (rnd : nat) (c : Cell) :
  height self = n → width self = n → 0 < n →
  make_random_move self rnd = Return (Some c) →
  (0 ≤ c.1 < n) ∧ (0 ≤ c.2 < n) ∧ c ∉ moves_made self ∧ c ∉ mines self.
Proof.
  intros Hh Hw Hn. unfold make_random_move. case_decide; [|discriminate].
  intros Hc%random_choice_Some. unfold possible in Hc.
  apply elem_of_elements in Hc.
  destruct (proj1 (all_cells_square self n c Hh Hw Hn)) as [H1 H2];
    [set_solver|].
  split_and!; [lia | lia | lia | lia | set_solver | set_solver].
Qed.

Lemma make_random_move_on_grid_witness :
  (height (init 3 3) = 3 ∧ width (init 3 3) = 3 ∧
   make_random_move (init 3 3) 7 = Return (Some (2, 1))) ∧
  (0 ≤ (2, 1).1 < 3) ∧ (0 ≤ (2, 1).2 < 3).
Proof.
  assert (make_random_move (init 3 3) 7 = Return (Some (2, 1))) as Hc
    by (vm_compute; reflexivity).
  split; [done|].
  destruct (make_random_move_on_grid (init 3 3) 3 7 (2, 1) eq_refl eq_refl
              ltac:(lia) Hc) as (H1 & H2 & _).
  split; [exact H1 | exact H2].
Defined.

(** ** Building the board *)

Lemma randrange_Some raw n i : randrange raw n = Some i → 0 ≤ i < n.
Proof.
  unfold randrange. case_decide; [|done]. intros [= <-].
  apply Z.mod_pos_bound. lia.
Qed.

Lemma place_mines_built h w m draws : ∀ placed B,
  set_Forall (fun c : Cell => (0 ≤ c.1 < h) ∧ (0 ≤ c.2 < w)) placed →
  place_mines h w m draws placed = Built B →
  board_wf B ∧ Z.of_nat (size (Minesweeper.mines B)) = m ∧
  Minesweeper.height B = h ∧ Minesweeper.width B = w.
Proof.
  induction draws as [|[a b] draws IH]; intros placed B Hwf; simpl;
    case_decide as Hsz; try (intros [= <-]; done); try done.
  destruct (randrange a h) as [i|] eqn:Ei; [|done].
  destruct (randrange b w) as [j|] eqn:Ej; [|done].
  destruct (Minesweeper.board _ i j); [by apply IH|].
  apply IH. apply set_Forall_union; [|done].
  apply set_Forall_singleton. simpl.
  apply randrange_Some in Ei, Ej. done.
Qed.

(** X18.  A board that [Minesweeper(height, width, mines)] builds has
    exactly [mines] mines, all of them on the grid, and the height and
    width asked for. *)
Theorem Minesweeper_init_built (h w m : Z) (draws : list (nat * nat))
    (B : Minesweeper.t) :
  Minesweeper_init h w m draws = Built B →
  board_wf B ∧ Z.of_nat (size (Minesweeper.mines B)) = m ∧
  Minesweeper.height B = h ∧ Minesweeper.width B = w.
Proof.
  apply place_mines_built. intros c Hc. by apply not_elem_of_empty in Hc.
Qed.

Lemma Minesweeper_init_built_witness :
  let B := Minesweeper.Minesweeper 2 2 {[ (1, 0); (0, 1) ]} in
  Minesweeper_init 2 2 2 [(1, 0); (3, 2); (0, 1)]%nat = Built B ∧
  board_wf B ∧ Z.of_nat (size (Minesweeper.mines B)) = 2.
Proof.
  cbv zeta.
  assert (Minesweeper_init 2 2 2 [(1, 0); (3, 2); (0, 1)]%nat
          = Built (Minesweeper.Minesweeper 2 2 {[ (1, 0); (0, 1) ]})) as H
    by (vm_compute; reflexivity).
  split; [exact H|].
  destruct (Minesweeper_init_built _ _ _ _ _ H) as (Hwf & Hsz & _).
  split; [exact Hwf | exact Hsz].
Defined.

Lemma place_mines_returns h w m draws : ∀ placed,
  0 < h → 0 < w →
  Z.of_nat (size placed) ≤ m →
  m ≤ Z.of_nat (size (placed ∪ list_to_set (drawn_cell h w <$> draws))) →
  ∃ B, place_mines h w m draws placed = Built B.
Proof.
  induction draws as [|[a b] draws IH]; intros placed Hh Hw Hlo Hhi; simpl;
    case_decide as Hsz; try (by eexists).
  - exfalso. simpl in Hhi. rewrite (right_id_L ∅ (∪)) in Hhi. lia.
  - unfold randrange. rewrite !decide_True by done.
    unfold Minesweeper.board; simpl.
    rewrite fmap_cons, list_to_set_cons in Hhi.
    unfold drawn_cell in Hhi at 1; simpl in Hhi.
    set (d := (Z.of_nat a `mod` h, Z.of_nat b `mod` w)) in *.
    destruct (bool_decide (d ∈ placed)) eqn:Ed.
    + apply bool_decide_eq_true in Ed. apply IH; [done..|].
      replace (placed ∪ list_to_set (drawn_cell h w <$> draws))
        with (placed ∪ ({[d]} ∪ list_to_set (drawn_cell h w <$> draws)))
        by set_solver.
      done.
    + apply bool_decide_eq_false in Ed.
      assert (size ({[d]} ∪ placed) = S (size placed)) as Hs.
      { rewrite size_union by set_solver. by rewrite size_singleton. }
      apply IH; [done | done | lia |].
      replace ({[d]} ∪ placed ∪ list_to_set (drawn_cell h w <$> draws))
        with (placed ∪ ({[d]} ∪ list_to_set (drawn_cell h w <$> draws)))
        by set_solver.
      done.
Qed.

(** X19.  The constructor returns as soon as the generator has hit enough
    different cells: on a grid with [height, width > 0], if the draws
    supplied select at least [mines ≥ 0] distinct cells, a board is
    built. *)
Theorem Minesweeper_init_returns (h w m : Z) (draws : list (nat * nat)) :
  0 < h → 0 < w →
  0 ≤ m ≤ Z.of_nat (size (list_to_set (drawn_cell h w <$> draws) : gset Cell)) →
  ∃ B, Minesweeper_init h w m draws = Built B.
Proof.
  intros Hh Hw [Hlo Hhi]. apply place_mines_returns; [done | done | |].
  - by rewrite size_empty.
  - by rewrite (left_id_L ∅ (∪)).
Qed.

Lemma Minesweeper_init_returns_witness :
  0 ≤ 2 ≤ Z.of_nat (size (list_to_set
            (drawn_cell 2 2 <$> [(1, 0); (3, 2); (0, 1)]%nat) : gset Cell)) ∧
  ∃ B, Minesweeper_init 2 2 2 [(1, 0); (3, 2); (0, 1)]%nat = Built B.
Proof.
  assert (0 ≤ 2 ≤ Z.of_nat (size (list_to_set
            (drawn_cell 2 2 <$> [(1, 0); (3, 2); (0, 1)]%nat) : gset Cell)))
    as H by by_compute.
  split; [exact H|].
  exact (Minesweeper_init_returns 2 2 2 _ ltac:(lia) ltac:(lia) H).
Defined.





(** X21.  On an empty grid the first draw fails: with [mines ≠ 0] and
    [height ≤ 0] or [width ≤ 0] the constructor raises the [ValueError]
    of [random.randrange]. *)
Theorem Minesweeper_init_empty_grid (h w m : Z) (draws : list (nat * nat)) :
  m ≠ 0 → h ≤ 0 ∨ w ≤ 0 → draws ≠ [] →
  Minesweeper_init h w m draws = ValueError.
Proof.
  intros Hm Hhw Hd. destruct draws as [|[a b] draws]; [done|].
  unfold Minesweeper_init; cbn [place_mines].
  case_decide as Hsz; [rewrite size_empty in Hsz; simpl in Hsz; lia|].
  unfold randrange. destruct (decide (0 < h)); [|done].
  rewrite decide_False by lia. done.
Qed.

Lemma Minesweeper_init_empty_grid_witness :
  (3 ≠ 0 ∧ (0 ≤ 0 ∨ 4 ≤ 0) ∧ [(5, 6)]%nat ≠ []) ∧
  Minesweeper_init 0 4 3 [(5, 6)]%nat = ValueError.
Proof.
  assert (3 ≠ 0) as Hm by lia.
  assert (0 ≤ 0 ∨ 4 ≤ 0) as Hhw by (left; lia).
  assert ([(5, 6)]%nat ≠ []) as Hd by discriminate.
  split; [done|].
  exact (Minesweeper_init_empty_grid 0 4 3 _ Hm Hhw Hd).
Defined.

(** ** Removing from the list that is being iterated *)

Lemma sweep_removes l : ∀ self i s,
  NoDup l →
  l !! i = Some s →
  (∀ j p, i = S j → l !! j = Some p → resolved p = false) →
  resolved s = true →
  s ∉ (sweep l self).1 ∧
  (∀ x, l !! S i = Some x → x ∈ (sweep l self).1).
Proof.
  induction (well_founded_ltof _ length l) as [l _ IH]. unfold ltof in IH.
  intros self i s Hnd Hi Hprev Hr.
  destruct l as [|s0 rest]; [done|].
  apply NoDup_cons in Hnd as [Hs0 Hnd].
  destruct i as [|j]; simpl in Hi.
  - injection Hi as ->. simpl. rewrite Hr.
    destruct rest as [|x rest']; simpl.
    + split; [apply not_elem_of_nil | done].
    + split.
      * intros [->|Hin]%elem_of_cons; [apply Hs0; left|].
        apply Hs0. right.
        eapply elem_of_sublist; [exact Hin | apply sweep_sublist].
      * intros y [= ->]. left.
  - assert (s ≠ s0) as Hne.
    { intros ->. apply Hs0. by eapply list_elem_of_lookup_2. }
    simpl. destruct (resolved s0) eqn:Er.
    + destruct j as [|k].
      { exfalso. specialize (Hprev 0%nat s0 eq_refl eq_refl). congruence. }
      destruct rest as [|y rest']; [done|]. simpl in Hi.
      apply NoDup_cons in Hnd as [Hy Hnd'].
      destruct (IH rest' ltac:(simpl; lia) (apply_marks s0 self) k s Hnd' Hi)
        as [Hout Hnext]; [|done|].
      { intros m p -> Hp. apply (Hprev (S (S m)) p); done. }
      simpl. split.
      * intros [->|Hin]%elem_of_cons; [|done].
        apply Hy. by eapply list_elem_of_lookup_2.
      * intros x Hx. right. by apply Hnext.
    + destruct (IH rest ltac:(simpl; lia) self j s Hnd Hi) as [Hout Hnext];
        [|done|].
      { intros m p -> Hp. apply (Hprev (S m) p); done. }
      simpl. split.
      * intros [->|Hin]%elem_of_cons; done.
      * intros x Hx. right. by apply Hnext.
Qed.

(** X22.  The sweep removes from the list it iterates over, so the
    sentence behind a removed one is never looked at.  A resolved
    sentence of the snapshot that is first, or that follows an unresolved
    sentence, is dropped from the knowledge base, and the sentence right
    behind it is kept whether or not it is resolved. *)
Theorem add_knowledge_passes_over_successor (self : t) (cell : Cell)
    (count : Z) (i : nat) (s : Sentence.t) :
  knowledge (pre_closure self cell count) !! i = Some s →
  (∀ j p, i = S j →
          knowledge (pre_closure self cell count) !! j = Some p →
          resolved p = false) →
  resolved s = true →
  s ∉ knowledge (add_knowledge self cell count) ∧
  (∀ x, knowledge (pre_closure self cell count) !! S i = Some x →
        x ∈ knowledge (add_knowledge self cell count)).
Proof.
  intros Hi Hprev Hr. rewrite add_knowledge_sweep; fields.
  apply (sweep_removes _ _ i s); [apply pre_closure_NoDup | done..].
Qed.

Lemma add_knowledge_passes_over_successor_witness :
  let self := add_knowledge (init 8 8) (0, 0) 2 in
  let s := Sentence.Sentence {[ (1, 0); (1, 1) ]} 2 in
  let x := Sentence.Sentence {[ (0, 2); (1, 2) ]} 0 in
  (knowledge (pre_closure self (0, 1) 2) !! 0%nat = Some s ∧
   resolved s = true ∧
   knowledge (pre_closure self (0, 1) 2) !! 1%nat = Some x ∧
   resolved x = true) ∧
  s ∉ knowledge (add_knowledge self (0, 1) 2) ∧
  x ∈ knowledge (add_knowledge self (0, 1) 2).
Proof.
  cbv zeta.
  assert (knowledge (pre_closure (add_knowledge (init 8 8) (0, 0) 2) (0, 1) 2)
            !! 0%nat = Some (Sentence.Sentence {[ (1, 0); (1, 1) ]} 2)) as H0
    by by_compute.
  assert (resolved (Sentence.Sentence {[ (1, 0); (1, 1) ]} 2) = true) as Hr
    by (vm_compute; reflexivity).
  assert (knowledge (pre_closure (add_knowledge (init 8 8) (0, 0) 2) (0, 1) 2)
            !! 1%nat = Some (Sentence.Sentence {[ (0, 2); (1, 2) ]} 0)) as H1
    by by_compute.
  assert (resolved (Sentence.Sentence {[ (0, 2); (1, 2) ]} 0) = true) as Hrx
    by (vm_compute; reflexivity).
  split; [done|].
  destruct (add_knowledge_passes_over_successor
              (add_knowledge (init 8 8) (0, 0) 2) (0, 1) 2 0 _ H0
              ltac:(intros j p Hj; discriminate Hj) Hr) as [Hout Hnext].
  split; [exact Hout | exact (Hnext _ H1)].
Defined.

(** ** The snapshot: what an observation adds *)






